(** * clib-search: the matcher, the renderer and the command's control flow

    A shallow embedding of [src/clib-search.c].  C strings are [string]s,
    [char *] values are optional heap locations ([None] is [NULL]), the
    heap is a finite map from locations to strings, and the functions
    that allocate, overwrite or release strings are written in a small
    state-and-failure monad over that heap. *)

From Stdlib Require Import ZArith Ascii String List Lia.
From stdpp Require Import base option gmap fin_maps.

Local Open Scope string_scope.
Local Open Scope Z_scope.

#[local] Set Warnings "-clear-no-such-hyp".

(** ** C strings *)

Module CString.

(** [is_upper] and [is_lower] are the ASCII ranges ['A'..'Z'] and
    ['a'..'z']. *)
Definition is_upper (c : ascii) : bool :=
  let n := N_of_ascii c in ((65 <=? n) && (n <=? 90))%N.

Definition is_lower (c : ascii) : bool :=
  let n := N_of_ascii c in ((97 <=? n) && (n <=? 122))%N.

Definition lower_char (c : ascii) : ascii :=
  if is_upper c then ascii_of_N (N_of_ascii c + 32) else c.

Definition upper_char (c : ascii) : ascii :=
  if is_lower c then ascii_of_N (N_of_ascii c - 32) else c.

Fixpoint map_chars (f : ascii -> ascii) (s : string) : string :=
  match s with
  | EmptyString => EmptyString
  | String c rest => String (f c) (map_chars f rest)
  end.

(** Modelled from the spec: [case_lower] of [case/case.h] is not part of
    the source given; the spec says the field and the query terms are
    lowercased, which for the bytes of a C string is the ASCII mapping
    of ['A'..'Z'] to ['a'..'z'], every other byte kept. *)
Definition case_lower (s : string) : string := map_chars lower_char s.

(** Modelled from the spec: the uppercased form of a query term, the
    ASCII mapping of ['a'..'z'] to ['A'..'Z'] ([case_upper] of the same
    header). *)
Definition case_upper (s : string) : string := map_chars upper_char s.

(** [is_prefix needle s]: [s] starts with [needle]. *)
Fixpoint is_prefix (needle s : string) : bool :=
  match needle, s with
  | EmptyString, _ => true
  | String a needle', String b s' =>
      if Ascii.eqb a b then is_prefix needle' s' else false
  | String _ _, EmptyString => false
  end.

(** [strstr haystack needle] of the C library: a pointer to the first
    occurrence of [needle] in [haystack], that is the suffix of
    [haystack] starting there, or [NULL]. *)
Fixpoint strstr (haystack needle : string) : option string :=
  if is_prefix needle haystack then Some haystack
  else match haystack with
       | EmptyString => None
       | String _ rest => strstr rest needle
       end.

(** [t] occurs in [v] as a contiguous substring. *)
Definition is_substring (t v : string) : Prop :=
  exists pre post, v = (pre ++ t ++ post)%string.

End CString.

Import CString.

(** ** The heap and the monad of heap computations *)

Definition loc := positive.

(** A [char *]: [None] is [NULL]. *)
Definition ptr := option loc.

Definition NULL : ptr := None.

Abbreviation heap := (gmap loc string).

(** A computation reads and updates the heap and returns a value, or
    has no defined behaviour ([None]): a read or write through a pointer
    that is not allocated. *)
Definition M (A : Type) : Type := heap -> option (A * heap).

Definition ret {A} (a : A) : M A := fun h => Some (a, h).

Definition bind {A B} (m : M A) (k : A -> M B) : M B :=
  fun h => match m h with
           | Some (a, h') => k a h'
           | None => None
           end.

Declare Scope heap_scope.
Delimit Scope heap_scope with heap.
Notation "x <- m ;; k" := (bind m (fun x => k))
  (at level 100, m at next level, right associativity) : heap_scope.
Notation "m ;;; k" := (bind m (fun _ => k))
  (at level 100, right associativity) : heap_scope.
Local Open Scope heap_scope.

Definition load (l : loc) : M string :=
  fun h => match h !! l with
           | Some s => Some (s, h)
           | None => None
           end.

Definition store (l : loc) (s : string) : M unit :=
  fun h => match h !! l with
           | Some _ => Some (tt, <[l := s]> h)
           | None => None
           end.

(** A fresh block holding [s]. *)
Definition alloc (s : string) : M loc :=
  fun h => let l := fresh (dom h) in Some (l, <[l := s]> h).

(** [free(p)]: nothing for [NULL]. *)
Definition free (p : ptr) : M unit :=
  match p with
  | None => ret tt
  | Some l => fun h => match h !! l with
                       | Some _ => Some (tt, delete l h)
                       | None => None
                       end
  end.

(** [strdup] as the [COMPARE] guard expects it ([strdup/strdup.h]): a
    fresh copy, [NULL] for [NULL]. *)
Definition strdup (p : ptr) : M ptr :=
  match p with
  | None => ret NULL
  | Some l => s <- load l ;; l' <- alloc s ;; ret (Some l')
  end.

(** [case_lower(v)] lowercases the string at [v] in place. *)
Definition case_lower_at (l : loc) : M unit :=
  s <- load l ;; store l (case_lower s).

(** The string a pointer refers to, when there is one. *)
Definition deref (h : heap) (p : ptr) : option string :=
  match p with
  | None => None
  | Some l => h !! l
  end.

(** ** Package records *)

Record wiki_package := {
  repo : ptr;
  href : ptr;
  description : ptr;
  category : ptr
}.

Definition wiki_package_get_repo (pkg : wiki_package) : ptr := repo pkg.
Definition wiki_package_get_href (pkg : wiki_package) : ptr := href pkg.
Definition wiki_package_get_description (pkg : wiki_package) : ptr :=
  description pkg.
Definition wiki_package_get_category (pkg : wiki_package) : ptr :=
  category pkg.

(** A pointer is usable in [h]: [NULL] or allocated. *)
Definition ptr_ok (h : heap) (p : ptr) : Prop :=
  match p with
  | None => True
  | Some l => is_Some (h !! l)
  end.

Definition pkg_ok (h : heap) (pkg : wiki_package) : Prop :=
  ptr_ok h (repo pkg) /\ ptr_ok h (href pkg) /\
  ptr_ok h (description pkg) /\ ptr_ok h (category pkg).

(** ** The matcher *)

(** Where control goes after one expansion of the [COMPARE] macro: to
    the [cleanup] label, or on to the next statement; both with the
    current value of [rc]. *)
Inductive flow :=
| Goto_cleanup (rc : Z)
| Fallthrough (rc : Z).

(** The [for] loop of [COMPARE]: [rc = 1; break] at the first argument
    found in [v], [rc] untouched when there is none. *)
Fixpoint compare_loop (v : string) (args : list string) (rc : Z) : Z :=
  match args with
  | [] => rc
  | a :: rest =>
      match strstr v a with
      | Some _ => 1
      | None => compare_loop v rest rc
      end
  end.

(** The macro [COMPARE(v)]. *)
Definition COMPARE (v : ptr) (args : list string) (rc : Z) : M flow :=
  match v with
  | None => ret (Goto_cleanup 0)
  | Some l =>
      case_lower_at l ;;;
      s <- load l ;;
      ret (Fallthrough (compare_loop s args rc))
  end.

(** The [cleanup] label of [matches]. *)
Definition cleanup (description name repo href : ptr) (rc : Z) : M Z :=
  free description ;;;
  free name ;;;
  free repo ;;;
  free href ;;;
  ret rc.

Section Matcher.

(** What [clib_package_parse_name] ([common/clib-package.h], not part of
    the source given) computes from the text of a repo slug: the short
    name, or nothing when it yields [NULL]. *)
Variable parse_name : string -> option string.

(** [clib_package_parse_name], whose body is not part of the source
    given: it reads the slug, leaves it as it is, and returns the short
    name in a block of its own, which [matches] lowercases and passes to
    [free]; [NULL] for [NULL]. *)
Definition clib_package_parse_name (slug : ptr) : M ptr :=
  match slug with
  | None => ret NULL
  | Some l =>
      s <- load l ;;
      match parse_name s with
      | None => ret NULL
      | Some n => l' <- alloc n ;; ret (Some l')
      end
  end.

(** [matches(count, args, pkg)], with [args] the list of its [count]
    entries. *)
Definition matches (args : list string) (pkg : wiki_package) : M Z :=
  let count := Z.of_nat (length args) in
  if 0 =? count then ret 1 else
  name <- clib_package_parse_name (wiki_package_get_repo pkg) ;;
  f <- COMPARE name args 0 ;;
  match f with
  | Goto_cleanup rc => cleanup NULL name NULL NULL rc
  | Fallthrough rc =>
  description <- strdup (wiki_package_get_description pkg) ;;
  f <- COMPARE description args rc ;;
  match f with
  | Goto_cleanup rc => cleanup description name NULL NULL rc
  | Fallthrough rc =>
  repo <- strdup (wiki_package_get_repo pkg) ;;
  f <- COMPARE repo args rc ;;
  match f with
  | Goto_cleanup rc => cleanup description name repo NULL rc
  | Fallthrough rc =>
  href <- strdup (wiki_package_get_href pkg) ;;
  f <- COMPARE href args rc ;;
  match f with
  | Goto_cleanup rc => cleanup description name repo href rc
  | Fallthrough rc => cleanup description name repo href rc
  end end end end.

(** The short name [matches] derives from the repo of [pkg]. *)
Definition scanned_name (h : heap) (pkg : wiki_package) : option string :=
  match deref h (repo pkg) with
  | Some s => parse_name s
  | None => None
  end.

(** The four values [matches] scans, in scan order, as they are before
    lowercasing: the short name, the description, the repo, the href. *)
Definition scanned (h : heap) (pkg : wiki_package) : list (option string) :=
  [scanned_name h pkg; deref h (description pkg);
   deref h (repo pkg); deref h (href pkg)].

(** The value of [rc] that the successive [COMPARE]s leave. *)
Fixpoint scan (args : list string) (vs : list (option string)) (rc : Z) : Z :=
  match vs with
  | [] => rc
  | None :: _ => 0
  | Some s :: rest => scan args rest (compare_loop (case_lower s) args rc)
  end.

End Matcher.

(** The text after the first ['/'] of [s], when there is one. *)
Fixpoint after_slash (s : string) : option string :=
  match s with
  | EmptyString => None
  | String c rest =>
      if Ascii.eqb c "/"%char then Some rest else after_slash rest
  end.

(** Modelled from the spec: the short name of §4.2, for running the
    matcher on concrete records.  The name of an [owner/name] slug; the
    slug unchanged when it has no separator; never [NULL] for a slug
    that is not [NULL]. *)
Definition parse_name_spec (slug : string) : option string :=
  match after_slash slug with
  | Some n => Some n
  | None => Some slug
  end.

(** ** Options *)

Record opts := {
  opt_color : Z;
  opt_cache : Z;
  opt_json : Z
}.

(** The three [static int]s before [main] runs: zero. *)
Definition static_opts : opts :=
  {| opt_color := 0; opt_cache := 0; opt_json := 0 |}.

Definition setopt_nocolor (o : opts) : opts :=
  {| opt_color := 0; opt_cache := opt_cache o; opt_json := opt_json o |}.

Definition setopt_nocache (o : opts) : opts :=
  {| opt_color := opt_color o; opt_cache := 0; opt_json := opt_json o |}.

Definition setopt_json (o : opts) : opts :=
  {| opt_color := opt_color o; opt_cache := opt_cache o; opt_json := 1 |}.

(** The options registered with [command_option]: [-n], [-c], [-j]. *)
Inductive cli_flag :=
| Flag_no_color
| Flag_skip_cache
| Flag_json.

Definition callback (f : cli_flag) : opts -> opts :=
  match f with
  | Flag_no_color => setopt_nocolor
  | Flag_skip_cache => setopt_nocache
  | Flag_json => setopt_json
  end.

(** [command_parse] ([commander/commander.h]) calls the callback of each
    flag on the command line, in order; the other words are the query. *)
Definition command_parse (flags : list cli_flag) (o : opts) : opts :=
  fold_left (fun o f => callback f o) flags o.

(** The first two statements of [main]. *)
Definition main_defaults (o : opts) : opts :=
  {| opt_color := 1; opt_cache := 1; opt_json := opt_json o |}.

(** ** Rendering *)

Inductive cc_color_t :=
| CC_FG_NONE
| CC_FG_DARK_CYAN
| CC_FG_DARK_GRAY.

#[warnings="-register-all"]
Inductive JSON_Value :=
| JSONString (s : string)
| JSONObject (members : list (string * JSON_Value))
| JSONArray (items : list JSON_Value).

(** What is written to standard output, call by call. *)
Inductive out_event :=
| Printf (s : string)
  (** [printf], with the text it writes *)
| Cc_fprintf (c : cc_color_t) (s : string)
  (** [cc_fprintf(c, stdout, ...)]: the text, in foreground colour [c] *)
| Puts_json (v : JSON_Value)
  (** [puts(json_serialize_to_string_pretty(v))]: the pretty-printed
      serialization of [v], then a newline *).

Definition newline : string := String (ascii_of_nat 10) EmptyString.

(** A [char *] passed for a [%s]: the string it points to; passing
    [NULL] has no defined behaviour. *)
Definition arg_s (p : ptr) : M string :=
  match p with
  | None => fun _ => None
  | Some l => load l
  end.

Definition display_package (pkg : wiki_package)
    (fg_color_highlight fg_color_text : cc_color_t) : M (list out_event) :=
  r <- arg_s (wiki_package_get_repo pkg) ;;
  u <- arg_s (wiki_package_get_href pkg) ;;
  d <- arg_s (wiki_package_get_description pkg) ;;
  ret [Cc_fprintf fg_color_highlight ("  " ++ r ++ newline)%string;
       Printf "  url: ";
       Cc_fprintf fg_color_text (u ++ newline)%string;
       Printf "  desc: ";
       Cc_fprintf fg_color_text (d ++ newline)%string;
       Printf newline].

(** Setting a member of a JSON object: replaces the value of a name
    already there, appends otherwise. *)
Fixpoint set_member (name : string) (v : JSON_Value)
    (members : list (string * JSON_Value)) : list (string * JSON_Value) :=
  match members with
  | [] => [(name, v)]
  | (k, x) :: rest =>
      if String.eqb k name then (k, v) :: rest
      else (k, x) :: set_member name v rest
  end.

(** Modelled from the spec: [json_object_set_string] of
    [parson/parson.h] is not part of the source given; §4.4 has every
    key set to a string, the empty string for an absent value. *)
Definition json_object_set_string (members : list (string * JSON_Value))
    (name : string) (p : ptr) : M (list (string * JSON_Value)) :=
  match p with
  | None => ret (set_member name (JSONString EmptyString) members)
  | Some l => s <- load l ;; ret (set_member name (JSONString s) members)
  end.

Definition add_package_to_json (pkg : wiki_package)
    (json_list : list JSON_Value) : M (list JSON_Value) :=
  let json_pkg := [] in
  json_pkg <- json_object_set_string json_pkg "repo"
                (wiki_package_get_repo pkg) ;;
  json_pkg <- json_object_set_string json_pkg "href"
                (wiki_package_get_href pkg) ;;
  json_pkg <- json_object_set_string json_pkg "description"
                (wiki_package_get_description pkg) ;;
  json_pkg <- json_object_set_string json_pkg "category"
                (wiki_package_get_category pkg) ;;
  ret (json_list ++ [JSONObject json_pkg])%list.

(** ** The command *)

(** The registry once [wiki_registry_fetch] has returned: whether the
    fetch succeeded, and the packages its iterator yields. *)
Record wiki_registry := {
  fetch_ok : bool;
  packages : list wiki_package
}.

Definition wiki_registry_fetch (registry : wiki_registry) : bool :=
  fetch_ok registry.

(** What a run leaves: the value [main] returns, standard output, and
    the messages of [logger_error]. *)
Record run := {
  exit_code : Z;
  stdout : list out_event;
  errors : list string
}.

(** The loop that lowercases [program.argv] in place before the registry
    is read. *)
Definition lower_query (argv : list string) : list string :=
  map case_lower argv.

Section Command.

Variable parse_name : string -> option string.

(** The [while] loop of [main] over the packages still to come from the
    iterator, with the JSON array and the output so far. *)
Fixpoint iterate (o : opts) (args : list string)
    (fg_color_highlight fg_color_text : cc_color_t)
    (pkgs : list wiki_package) (json_list : list JSON_Value)
    (out : list out_event) : M (list JSON_Value * list out_event) :=
  match pkgs with
  | [] => ret (json_list, out)
  | pkg :: rest =>
      m <- matches parse_name args pkg ;;
      if m =? 0 then
        iterate o args fg_color_highlight fg_color_text rest json_list out
      else if opt_json o =? 0 then
        block <- display_package pkg fg_color_highlight fg_color_text ;;
        iterate o args fg_color_highlight fg_color_text rest json_list
          (out ++ block)%list
      else
        json_list <- add_package_to_json pkg json_list ;;
        iterate o args fg_color_highlight fg_color_text rest json_list out
  end.

(** [main], given what [command_parse] finds on the command line (the
    flags and the query words [program.argv]) and the registry. *)
Definition main (flags : list cli_flag) (argv : list string)
    (registry : wiki_registry) : M run :=
  let o := command_parse flags (main_defaults static_opts) in
  let args := lower_query argv in
  let fg_color_highlight :=
    if opt_color o =? 0 then CC_FG_NONE else CC_FG_DARK_CYAN in
  let fg_color_text :=
    if opt_color o =? 0 then CC_FG_NONE else CC_FG_DARK_GRAY in
  let _ := wiki_registry_fetch registry in
  let json_list := [] in
  let out := [Printf newline] in
  r <- iterate o args fg_color_highlight fg_color_text (packages registry)
         json_list out ;;
  let out :=
    if opt_json o =? 0 then snd r
    else (snd r ++ [Puts_json (JSONArray (fst r))])%list in
  ret {| exit_code := 0; stdout := out; errors := [] |}.

End Command.

(** ** The search cache *)

Definition CLIB_WIKI_URL : string :=
  "https://github.com/clibs/clib/wiki/Packages".

Definition CLIB_SEARCH_CACHE_TIME : Z := 1 * 24 * 60 * 60.

(** What the cache and the network answer during one call of
    [wiki_html_cache]. *)
Record search_env := {
  cache_has_search : bool;
  cache_read_search : option string;
  http_ok : bool;
  http_data : option string
}.

(** The calls [wiki_html_cache] makes to the cache and to the network. *)
Inductive io_event :=
| Clib_cache_has_search
| Clib_cache_read_search
| Http_get (url : string)
| Http_get_free
| Clib_cache_save_search (html : string).

(** [wiki_html_cache()]: the [char *] it returns and the calls it made.
    [clib_cache_has_search() && opt_cache] calls the cache first and
    tests the option second. *)
Definition wiki_html_cache (o : opts) (env : search_env)
    : option string * list io_event :=
  let t := [Clib_cache_has_search] in
  let use_cache := cache_has_search env && negb (opt_cache o =? 0) in
  let data := if use_cache then cache_read_search env else None in
  let t := if use_cache then (t ++ [Clib_cache_read_search])%list else t in
  match data with
  | Some data => (Some data, t)
  | None =>
      let t := (t ++ [Http_get CLIB_WIKI_URL])%list in
      if negb (http_ok env) then (None, t)
      else
        match http_data env with
        | None => (None, t)
        | Some html =>
            (Some html, (t ++ [Http_get_free; Clib_cache_save_search html])%list)
        end
  end.

(** ** What a run is compared with *)

(** [owns t ps]: the temporaries [t] are exactly the blocks that the
    pointers [ps] refer to, each once. *)
Definition owns (t : gmap loc string) (ps : list ptr) : Prop :=
  NoDup (omap id ps) /\ dom t = list_to_set (omap id ps).

(** The value [matches] returns for a package whose strings are those
    of [h]. *)
Definition match_value (parse_name : string -> option string)
    (args : list string) (h : heap) (pkg : wiki_package) : Z :=
  if 0 =? Z.of_nat (length args) then 1
  else scan args (scanned parse_name h pkg) 0.

(** [matches] returns a value that is not 0. *)
Definition matched (parse_name : string -> option string)
    (args : list string) (h : heap) (pkg : wiki_package) : bool :=
  negb (match_value parse_name args h pkg =? 0).

(** The string a member is set to from a field of the package. *)
Definition member_string (h : heap) (p : ptr) : JSON_Value :=
  JSONString (default EmptyString (deref h p)).

(** The object [add_package_to_json] appends for [pkg], its strings
    read from [h]. *)
Definition pkg_json (h : heap) (pkg : wiki_package) : JSON_Value :=
  JSONObject [("repo", member_string h (repo pkg));
              ("href", member_string h (href pkg));
              ("description", member_string h (description pkg));
              ("category", member_string h (category pkg))].

(** The block [display_package] writes for a package with the strings
    [r], [u], [d] as repo, href and description. *)
Definition block (fg_color_highlight fg_color_text : cc_color_t)
    (r u d : string) : list out_event :=
  [Cc_fprintf fg_color_highlight ("  " ++ r ++ newline)%string;
   Printf "  url: ";
   Cc_fprintf fg_color_text (u ++ newline)%string;
   Printf "  desc: ";
   Cc_fprintf fg_color_text (d ++ newline)%string;
   Printf newline].

Definition pkg_block (fg_color_highlight fg_color_text : cc_color_t)
    (h : heap) (pkg : wiki_package) : list out_event :=
  block fg_color_highlight fg_color_text
    (default EmptyString (deref h (repo pkg)))
    (default EmptyString (deref h (href pkg)))
    (default EmptyString (deref h (description pkg))).

(** The three strings [display_package] prints are there. *)
Definition printable (h : heap) (pkg : wiki_package) : Prop :=
  is_Some (deref h (repo pkg)) /\ is_Some (deref h (href pkg)) /\
  is_Some (deref h (description pkg)).

Definition cli_flag_eqb (f g : cli_flag) : bool :=
  match f, g with
  | Flag_no_color, Flag_no_color => true
  | Flag_skip_cache, Flag_skip_cache => true
  | Flag_json, Flag_json => true
  | _, _ => false
  end.

(** [f] is on the command line. *)
Definition given (f : cli_flag) (flags : list cli_flag) : bool :=
  existsb (cli_flag_eqb f) flags.

(** The options [main] runs with. *)
Definition run_opts (flags : list cli_flag) : opts :=
  command_parse flags (main_defaults static_opts).

(** The plain text of an output made of [printf] and [cc_fprintf] calls,
    colours left out. *)
Fixpoint out_text (out : list out_event) : string :=
  match out with
  | [] => EmptyString
  | Printf s :: rest => (s ++ out_text rest)%string
  | Cc_fprintf _ s :: rest => (s ++ out_text rest)%string
  | Puts_json _ :: rest => out_text rest
  end.

(** ** A registry to run the command on

    The record of the spec's scenario, [{repo: "foo/bar", href:
    "https://x/bar", description: "A bar tool", category: "tools"}], and
    the same record with no description. *)

Definition example_heap : heap :=
  <[1%positive := "foo/bar"]>
    (<[2%positive := "https://x/bar"]>
       (<[3%positive := "A bar tool"]>
          (<[4%positive := "tools"]> ∅))).

Definition example_pkg : wiki_package :=
  {| repo := Some 1%positive; href := Some 2%positive;
     description := Some 3%positive; category := Some 4%positive |}.

Definition example_pkg_no_description : wiki_package :=
  {| repo := Some 1%positive; href := Some 2%positive;
     description := NULL; category := Some 4%positive |}.

Definition example_registry : wiki_registry :=
  {| fetch_ok := true; packages := [example_pkg] |}.

Definition empty_registry : wiki_registry :=
  {| fetch_ok := true; packages := [] |}.

(** A cache that holds an entry, and a network that answers. *)
Definition fresh_cache_env : search_env :=
  {| cache_has_search := true; cache_read_search := Some "cached";
     http_ok := true; http_data := Some "fetched" |}.

(** ** What further properties are stated with *)

(** Some byte of [s] is an upper-case letter. *)
Fixpoint has_upper (s : string) : bool :=
  match s with
  | EmptyString => false
  | String c rest => is_upper c || has_upper rest
  end.

(** The same write with no foreground colour. *)
Definition uncolor (e : out_event) : out_event :=
  match e with
  | Cc_fprintf _ s => Cc_fprintf CC_FG_NONE s
  | Printf s => Printf s
  | Puts_json v => Puts_json v
  end.

Definition uncolor_run (r : run) : run :=
  {| exit_code := exit_code r;
     stdout := map uncolor (stdout r);
     errors := errors r |}.

(** The record of the scenario in upper case, in a heap of its own. *)
Definition example_heap_upper : heap :=
  <[1%positive := "FOO/BAR"]>
    (<[2%positive := "HTTPS://X/BAR"]>
       (<[3%positive := "A BAR TOOL"]>
          (<[4%positive := "tools"]> ∅))).

(** A cache whose entry cannot be read, and a network that answers. *)
Definition unreadable_cache_env : search_env :=
  {| cache_has_search := true; cache_read_search := None;
     http_ok := true; http_data := Some "fetched" |}.

(** No cache entry, and a network that fails. *)
Definition offline_env : search_env :=
  {| cache_has_search := false; cache_read_search := None;
     http_ok := false; http_data := None |}.

(** Two packages with the same repo, href and description: they differ
    at most in their category. *)
Definition same_but_category (pkg pkg' : wiki_package) : Prop :=
  repo pkg = repo pkg' /\ href pkg = href pkg' /\
  description pkg = description pkg'.

(** The record of the scenario with no category. *)
Definition example_pkg_no_category : wiki_package :=
  {| repo := Some 1%positive; href := Some 2%positive;
     description := Some 3%positive; category := NULL |}.

(** ** What a run calls, and kinds of calls *)

(** The calls by which [main] could reach the search cache or the
    registry: [clib_cache_init], [wiki_registry_create],
    [wiki_registry_fetch], and the calls that [wiki_html_cache] makes. *)
Inductive main_call :=
| Cache_init (retention : Z)
| Registry_create (url : string)
| Registry_fetch
| Io (e : io_event).

(** Those of these calls that [main] makes, in order (lines 152, 177
    and 178), when the options are [o]: they do not depend on the
    options, and none is made through [wiki_html_cache], whose only call
    is inside the comment that follows [wiki_registry_fetch]. *)
Definition main_calls (o : opts) : list main_call :=
  [Cache_init CLIB_SEARCH_CACHE_TIME;
   Registry_create CLIB_WIKI_URL;
   Registry_fetch].

(** Which function a call of [wiki_html_cache] is to, its argument left
    out. *)
Inductive io_kind :=
| Kind_has_search
| Kind_read_search
| Kind_http_get
| Kind_http_get_free
| Kind_save_search.

Definition kind_of (e : io_event) : io_kind :=
  match e with
  | Clib_cache_has_search => Kind_has_search
  | Clib_cache_read_search => Kind_read_search
  | Http_get _ => Kind_http_get
  | Http_get_free => Kind_http_get_free
  | Clib_cache_save_search _ => Kind_save_search
  end.

(** * Properties *)

(** ** Strings *)

Lemma lower_upper_char (c : ascii) : lower_char (upper_char c) = lower_char c.
Proof.
  destruct c as [[] [] [] [] [] [] [] []]; vm_compute; reflexivity.
Qed.

Lemma case_lower_upper (s : string) : case_lower (case_upper s) = case_lower s.
Proof.
  unfold case_lower, case_upper.
  induction s as [|c s IH]; simpl; [reflexivity|].
  now rewrite lower_upper_char, IH.
Qed.

Lemma is_prefix_spec (needle s : string) :
  is_prefix needle s = true <-> exists post, s = (needle ++ post)%string.
Proof.
  revert s; induction needle as [|a n IH]; intros s; simpl.
  - split; [intros _; now exists s | reflexivity].
  - destruct s as [|b s].
    + split; [discriminate | intros [post H]; discriminate].
    + destruct (Ascii.eqb_spec a b) as [->|Hne].
      * rewrite IH. split; intros [post H]; exists post.
        -- now rewrite H.
        -- now inversion H.
      * split; [discriminate | intros [post H]; simpl in H; injection H as H1 H2; congruence].
Qed.

Lemma strstr_is_substring (haystack needle : string) :
  is_Some (strstr haystack needle) <-> is_substring needle haystack.
Proof.
  induction haystack as [|c h IH]; simpl.
  - destruct (is_prefix needle EmptyString) eqn:E.
    + split; [intros _ | eauto].
      apply is_prefix_spec in E as [post E]. exists EmptyString, post. exact E.
    + split; [intros [x Hx]; discriminate|].
      intros ([|c pre] & post & H); simpl in H.
      * assert (is_prefix needle EmptyString = true) by (apply is_prefix_spec; eauto).
        congruence.
      * discriminate.
  - destruct (is_prefix needle (String c h)) eqn:E.
    + split; [intros _ | eauto].
      apply is_prefix_spec in E as [post E]. exists EmptyString, post. exact E.
    + rewrite IH. split.
      * intros (pre & post & ->). now exists (String c pre), post.
      * intros ([|c' pre] & post & H); simpl in H.
        -- assert (is_prefix needle (String c h) = true)
             by (apply is_prefix_spec; eauto).
           congruence.
        -- inversion H; subst. now exists pre, post.
Qed.

Lemma strstr_None (haystack needle : string) :
  strstr haystack needle = None <-> ~ is_substring needle haystack.
Proof.
  rewrite <- strstr_is_substring, <- eq_None_not_Some. reflexivity.
Qed.

(** ** The loop of [COMPARE] *)

Lemma compare_loop_hit (v : string) (args : list string) (rc : Z) :
  (exists a, In a args /\ is_substring a v) -> compare_loop v args rc = 1.
Proof.
  induction args as [|a args IH]; simpl; intros (t & Hin & Hsub).
  - contradiction.
  - destruct (strstr v a) eqn:E; [reflexivity|].
    destruct Hin as [->|Hin].
    + apply strstr_None in E. contradiction.
    + apply IH. eauto.
Qed.

Lemma compare_loop_miss (v : string) (args : list string) (rc : Z) :
  ~ (exists a, In a args /\ is_substring a v) -> compare_loop v args rc = rc.
Proof.
  induction args as [|a args IH]; simpl; intros Hno; [reflexivity|].
  destruct (strstr v a) eqn:E.
  - exfalso. apply Hno. exists a. split; [now left|].
    apply strstr_is_substring. rewrite E. eauto.
  - apply IH. intros (t & Hin & Hsub). apply Hno. eauto.
Qed.

Lemma compare_loop_dec (v : string) (args : list string) :
  {exists a, In a args /\ is_substring a v} +
  {~ exists a, In a args /\ is_substring a v}.
Proof.
  induction args as [|a args [IH|IH]].
  - right. intros (t & [] & _).
  - left. destruct IH as (t & Hin & Hsub). exists t. split; [now right|easy].
  - destruct (strstr v a) eqn:E.
    + left. exists a. split; [now left|].
      apply strstr_is_substring. rewrite E. eauto.
    + right. intros (t & [->|Hin] & Hsub).
      * apply strstr_None in E. contradiction.
      * apply IH. eauto.
Qed.

Lemma compare_loop_bit (v : string) (args : list string) (rc : Z) :
  rc = 0 \/ rc = 1 -> compare_loop v args rc = 0 \/ compare_loop v args rc = 1.
Proof.
  intros Hrc. induction args as [|a args IH]; simpl; [exact Hrc|].
  destruct (strstr v a); [now right | exact IH].
Qed.

(** ** Temporaries next to the caller's heap

    While [matches] runs, the heap is the caller's heap [h] together with
    the temporaries [t] the function has allocated; every step below
    touches [t] only. *)

Section Temporaries.

Variables (t h : gmap loc string).
Hypothesis Hdisj : t ##ₘ h.

Lemma fresh_temp :
  t !! fresh (dom (t ∪ h)) = None /\ h !! fresh (dom (t ∪ h)) = None.
Proof.
  pose proof (is_fresh (dom (t ∪ h))) as Hf.
  apply not_elem_of_dom in Hf. apply lookup_union_None in Hf. exact Hf.
Qed.

Lemma lookup_caller (l : loc) (s : string) :
  h !! l = Some s -> (t ∪ h) !! l = Some s.
Proof.
  intros Hl. rewrite lookup_union_r; [exact Hl|].
  eapply map_disjoint_Some_r; eauto.
Qed.

Lemma lookup_temp (l : loc) (s : string) :
  t !! l = Some s -> (t ∪ h) !! l = Some s.
Proof. apply lookup_union_Some_l. Qed.

Lemma alloc_temp (s : string) :
  alloc s (t ∪ h) =
  Some (fresh (dom (t ∪ h)), <[fresh (dom (t ∪ h)) := s]> t ∪ h).
Proof. unfold alloc. now rewrite insert_union_l. Qed.

Lemma strdup_temp (p : ptr) :
  ptr_ok h p ->
  strdup p (t ∪ h) =
  match deref h p with
  | None => Some (NULL, t ∪ h)
  | Some s =>
      Some (Some (fresh (dom (t ∪ h))), <[fresh (dom (t ∪ h)) := s]> t ∪ h)
  end.
Proof.
  destruct p as [l|]; simpl; [|reflexivity].
  intros [s Hs]. rewrite Hs. unfold bind, load.
  rewrite (lookup_caller _ _ Hs), alloc_temp. reflexivity.
Qed.

Lemma COMPARE_temp (l : loc) (s : string) (args : list string) (rc : Z) :
  t !! l = Some s ->
  COMPARE (Some l) args rc (t ∪ h) =
  Some (Fallthrough (compare_loop (case_lower s) args rc),
        <[l := case_lower s]> t ∪ h).
Proof.
  intros Hl. unfold COMPARE, case_lower_at, bind, load, store.
  rewrite !(lookup_temp _ _ Hl), insert_union_l.
  rewrite (lookup_union_Some_l (<[l := case_lower s]> t) h l (case_lower s))
    by apply lookup_insert_eq.
  reflexivity.
Qed.

Lemma free_temp (l : loc) (s : string) :
  t !! l = Some s -> free (Some l) (t ∪ h) = Some (tt, delete l t ∪ h).
Proof.
  intros Hl. simpl. rewrite (lookup_temp _ _ Hl), delete_union.
  rewrite (delete_id h); [reflexivity|].
  eapply map_disjoint_Some_l; eauto.
Qed.

End Temporaries.

(** ** Releasing the temporaries *)

Lemma owns_nil (t : gmap loc string) : owns t [] -> t = ∅.
Proof. intros [_ Hdom]. simpl in Hdom. now apply dom_empty_inv_L. Qed.

Lemma owns_empty : owns ∅ [].
Proof. split; simpl; [constructor | apply dom_empty_L]. Qed.

Lemma owns_alloc (t : gmap loc string) (l : loc) (s : string)
    (ps1 ps2 : list ptr) :
  t !! l = None -> owns t (ps1 ++ ps2) ->
  owns (<[l := s]> t) (ps1 ++ Some l :: ps2).
Proof.
  intros Hl [Hnd Hdom]. apply not_elem_of_dom in Hl.
  rewrite omap_app in Hnd, Hdom. rewrite list_to_set_app_L in Hdom.
  unfold owns. rewrite omap_app. simpl.
  rewrite Hdom in Hl. apply NoDup_app in Hnd as (Hnd1 & Hnd12 & Hnd2).
  split.
  - apply NoDup_app. split; [exact Hnd1|]. split.
    + intros x Hx [->|Hx2]%elem_of_cons; [set_solver | now apply (Hnd12 x)].
    + apply NoDup_cons. split; [set_solver | exact Hnd2].
  - rewrite dom_insert_L, Hdom, list_to_set_app_L. simpl. set_solver.
Qed.

Lemma owns_null (t : gmap loc string) (ps1 ps2 : list ptr) :
  owns t (ps1 ++ ps2) -> owns t (ps1 ++ NULL :: ps2).
Proof. unfold owns. now rewrite !omap_app. Qed.

Section Owned.

Variables (t h : gmap loc string).
Hypothesis Hdisj : t ##ₘ h.

Lemma owns_free (p : ptr) (ps : list ptr) :
  owns t (p :: ps) ->
  exists t', free p (t ∪ h) = Some (tt, t' ∪ h) /\ t' ##ₘ h /\ owns t' ps.
Proof.
  destruct p as [l|]; intros [Hnd Hdom]; simpl in Hnd, Hdom.
  - assert (is_Some (t !! l)) as [s Hs] by (apply elem_of_dom; set_solver).
    exists (delete l t). split; [now apply free_temp with s|].
    split; [now apply map_disjoint_delete_l|].
    apply NoDup_cons in Hnd as [Hl Hnd]. split; [exact Hnd|].
    rewrite dom_delete_L, Hdom. set_solver.
  - exists t. split; [reflexivity|]. split; [exact Hdisj|]. now split.
Qed.

End Owned.

Lemma cleanup_owned (t h : gmap loc string) (d n r hr : ptr) (rc : Z) :
  t ##ₘ h -> owns t [d; n; r; hr] ->
  cleanup d n r hr rc (t ∪ h) = Some (rc, h).
Proof.
  intros Hdisj Ho. unfold cleanup, bind.
  destruct (owns_free _ _ Hdisj _ _ Ho) as (t1 & -> & Hd1 & Ho1).
  destruct (owns_free _ _ Hd1 _ _ Ho1) as (t2 & -> & Hd2 & Ho2).
  destruct (owns_free _ _ Hd2 _ _ Ho2) as (t3 & -> & Hd3 & Ho3).
  destruct (owns_free _ _ Hd3 _ _ Ho3) as (t4 & -> & Hd4 & Ho4).
  apply owns_nil in Ho4 as ->. unfold ret. now rewrite (left_id_L ∅ (∪)).
Qed.

(** One stage of [matches]: a temporary is made (or not), then
    [COMPARE] runs on it. *)
Lemma stage_temp (t h : gmap loc string) (mk : M ptr) (c : option string)
    (args : list string) (rc : Z) (k : ptr -> flow -> M Z) :
  t ##ₘ h ->
  mk (t ∪ h) =
    match c with
    | None => Some (NULL, t ∪ h)
    | Some s =>
        Some (Some (fresh (dom (t ∪ h))), <[fresh (dom (t ∪ h)) := s]> t ∪ h)
    end ->
  (v <- mk ;; f <- COMPARE v args rc ;; k v f) (t ∪ h) =
  match c with
  | None => k NULL (Goto_cleanup 0) (t ∪ h)
  | Some s =>
      k (Some (fresh (dom (t ∪ h))))
        (Fallthrough (compare_loop (case_lower s) args rc))
        (<[fresh (dom (t ∪ h)) := case_lower s]> t ∪ h)
  end.
Proof.
  intros Hdisj Hmk. unfold bind at 1. rewrite Hmk.
  destruct c as [s|]; [|reflexivity].
  destruct (fresh_temp t h) as [Ht Hh].
  unfold bind at 1.
  rewrite (COMPARE_temp (<[fresh (dom (t ∪ h)) := s]> t) h _ s)
    by apply lookup_insert_eq.
  now rewrite insert_insert_eq.
Qed.

Section MatcherRuns.

Variable parse_name : string -> option string.

Lemma parse_name_temp (t h : gmap loc string) (p : ptr) :
  t ##ₘ h -> ptr_ok h p ->
  clib_package_parse_name parse_name p (t ∪ h) =
  match deref h p ≫= parse_name with
  | None => Some (NULL, t ∪ h)
  | Some n =>
      Some (Some (fresh (dom (t ∪ h))), <[fresh (dom (t ∪ h)) := n]> t ∪ h)
  end.
Proof.
  intros Hdisj. destruct p as [l|]; simpl; [|reflexivity].
  intros [s Hs]. rewrite Hs. unfold bind at 1. unfold load.
  rewrite (lookup_caller _ _ Hdisj _ _ Hs). simpl.
  destruct (parse_name s); [|reflexivity].
  unfold bind. now rewrite alloc_temp.
Qed.

Variables (args : list string) (pkg : wiki_package) (h : gmap loc string).
Hypothesis Hpkg : pkg_ok h pkg.

(** The last stage: [href]. *)
Lemma matches_href (t : gmap loc string) (d n r : ptr) (rc : Z) :
  t ##ₘ h -> owns t [d; n; r] ->
  (href <- strdup (wiki_package_get_href pkg) ;;
   f <- COMPARE href args rc ;;
   match f with
   | Goto_cleanup rc => cleanup d n r href rc
   | Fallthrough rc => cleanup d n r href rc
   end) (t ∪ h) =
  Some (scan args [deref h (href pkg)] rc, h).
Proof.
  intros Hdisj Ho. destruct Hpkg as (Hrepo & Hhref & Hdesc & Hcat).
  rewrite (stage_temp t h _ (deref h (href pkg))) by
    (auto using strdup_temp).
  destruct (fresh_temp t h) as [Ht Hh].
  destruct (deref h (href pkg)) as [s|]; simpl.
  - apply cleanup_owned.
    + now apply map_disjoint_insert_l_2.
    + now apply (owns_alloc t _ _ [d; n; r] []).
  - apply cleanup_owned; [exact Hdisj|].
    now apply (owns_null t [d; n; r] []).
Qed.

(** The third stage: [repo], then [href]. *)
Lemma matches_repo (t : gmap loc string) (d n : ptr) (rc : Z) :
  t ##ₘ h -> owns t [d; n] ->
  (repo <- strdup (wiki_package_get_repo pkg) ;;
   f <- COMPARE repo args rc ;;
   match f with
   | Goto_cleanup rc => cleanup d n repo NULL rc
   | Fallthrough rc =>
       href <- strdup (wiki_package_get_href pkg) ;;
       f <- COMPARE href args rc ;;
       match f with
       | Goto_cleanup rc => cleanup d n repo href rc
       | Fallthrough rc => cleanup d n repo href rc
       end
   end) (t ∪ h) =
  Some (scan args [deref h (repo pkg); deref h (href pkg)] rc, h).
Proof.
  intros Hdisj Ho. destruct Hpkg as (Hrepo & Hhref & Hdesc & Hcat).
  rewrite (stage_temp t h _ (deref h (repo pkg))) by
    (auto using strdup_temp).
  destruct (fresh_temp t h) as [Ht Hh].
  destruct (deref h (repo pkg)) as [s|]; simpl.
  - apply matches_href.
    + now apply map_disjoint_insert_l_2.
    + now apply (owns_alloc t _ _ [d; n] []).
  - apply cleanup_owned; [exact Hdisj|].
    apply (owns_null t [d; n; NULL] []), (owns_null t [d; n] []), Ho.
Qed.

(** The second stage: [description], then the rest. *)
Lemma matches_description (t : gmap loc string) (n : ptr) (rc : Z) :
  t ##ₘ h -> owns t [n] ->
  (description <- strdup (wiki_package_get_description pkg) ;;
   f <- COMPARE description args rc ;;
   match f with
   | Goto_cleanup rc => cleanup description n NULL NULL rc
   | Fallthrough rc =>
       repo <- strdup (wiki_package_get_repo pkg) ;;
       f <- COMPARE repo args rc ;;
       match f with
       | Goto_cleanup rc => cleanup description n repo NULL rc
       | Fallthrough rc =>
           href <- strdup (wiki_package_get_href pkg) ;;
           f <- COMPARE href args rc ;;
           match f with
           | Goto_cleanup rc => cleanup description n repo href rc
           | Fallthrough rc => cleanup description n repo href rc
           end
       end
   end) (t ∪ h) =
  Some (scan args [deref h (description pkg); deref h (repo pkg);
                   deref h (href pkg)] rc, h).
Proof.
  intros Hdisj Ho. destruct Hpkg as (Hrepo & Hhref & Hdesc & Hcat).
  rewrite (stage_temp t h _ (deref h (description pkg))) by
    (auto using strdup_temp).
  destruct (fresh_temp t h) as [Ht Hh].
  destruct (deref h (description pkg)) as [s|]; simpl.
  - apply matches_repo.
    + now apply map_disjoint_insert_l_2.
    + now apply (owns_alloc t _ _ [] [n]).
  - apply cleanup_owned; [exact Hdisj|].
    apply (owns_null t [] [n; NULL; NULL]), (owns_null t [n; NULL] []),
      (owns_null t [n] []), Ho.
Qed.

(** [matches] returns, leaves the heap as it found it, and its value is
    the [rc] that scanning the four values leaves. *)
Lemma matches_run :
  matches parse_name args pkg h =
  Some (if 0 =? Z.of_nat (length args) then 1
        else scan args (scanned parse_name h pkg) 0, h).
Proof.
  destruct Hpkg as (Hrepo & Hhref & Hdesc & Hcat).
  unfold matches. destruct (0 =? Z.of_nat (length args)); [reflexivity|].
  rewrite <- (left_id_L ∅ (∪) h) at 1.
  rewrite (stage_temp ∅ h _ (scanned_name parse_name h pkg)).
  - destruct (fresh_temp ∅ h) as [Ht Hh]. unfold scanned.
    destruct (scanned_name parse_name h pkg) as [s|]; simpl.
    + apply matches_description.
      * apply map_disjoint_insert_l_2; [exact Hh | apply map_disjoint_empty_l].
      * apply (owns_alloc ∅ _ _ [] []); [exact Ht | apply owns_empty].
    + rewrite (left_id_L ∅ (∪) h). rewrite <- (left_id_L ∅ (∪) h) at 1.
      apply cleanup_owned; [apply map_disjoint_empty_l|].
      split; simpl; [constructor | apply dom_empty_L].
  - apply map_disjoint_empty_l.
  - rewrite (parse_name_temp ∅ h _ (map_disjoint_empty_l h) Hrepo).
    unfold scanned_name, wiki_package_get_repo.
    now destruct (deref h (repo pkg)).
Qed.

End MatcherRuns.

(** ** What the scan computes *)

Lemma compare_loop_one (v : string) (args : list string) (rc : Z) :
  rc = 0 \/ rc = 1 ->
  compare_loop v args rc = 1 <->
  rc = 1 \/ exists a, In a args /\ is_substring a v.
Proof.
  intros Hrc. destruct (compare_loop_dec v args) as [Hhit|Hmiss].
  - rewrite compare_loop_hit by exact Hhit. tauto.
  - rewrite compare_loop_miss by exact Hmiss. tauto.
Qed.

Lemma scan_absent (args : list string) (vs : list (option string)) (rc : Z) :
  In None vs -> scan args vs rc = 0.
Proof.
  revert rc. induction vs as [|[s|] vs IH]; intros rc Hin; simpl.
  - contradiction.
  - apply IH. destruct Hin as [Hin|Hin]; [discriminate | exact Hin].
  - reflexivity.
Qed.

Lemma scan_bit (args : list string) (vs : list (option string)) (rc : Z) :
  rc = 0 \/ rc = 1 -> scan args vs rc = 0 \/ scan args vs rc = 1.
Proof.
  revert rc. induction vs as [|[s|] vs IH]; intros rc Hrc; simpl.
  - exact Hrc.
  - apply IH, compare_loop_bit, Hrc.
  - now left.
Qed.

Lemma scan_present (args : list string) (ss : list string) (rc : Z) :
  rc = 0 \/ rc = 1 ->
  scan args (map Some ss) rc = 1 <->
  rc = 1 \/
  exists a s, In a args /\ In s ss /\ is_substring a (case_lower s).
Proof.
  revert rc. induction ss as [|s ss IH]; intros rc Hrc; simpl.
  - split; [now left | intros [H|(a & s & _ & [] & _)]; exact H].
  - rewrite IH by (apply compare_loop_bit, Hrc).
    rewrite compare_loop_one by exact Hrc. split.
    + intros [[H|(a & Ha & Hs)]|(a & s' & Ha & Hs' & Hsub)].
      * now left.
      * right. exists a, s. auto.
      * right. exists a, s'. auto.
    + intros [H|(a & s' & Ha & [<-|Hs'] & Hsub)].
      * left. now left.
      * left. right. eauto.
      * right. eauto.
Qed.

Lemma length_nonempty {A} (l : list A) :
  l <> [] -> (0 =? Z.of_nat (length l)) = false.
Proof. destruct l; [congruence | reflexivity]. Qed.

(** ** The matcher *)

Lemma example_pkg_ok : pkg_ok example_heap example_pkg.
Proof. repeat split; vm_compute; eauto. Qed.

Lemma example_pkg_no_description_ok :
  pkg_ok example_heap example_pkg_no_description.
Proof. repeat split; vm_compute; eauto. Qed.

Section MatcherClaims.

Variable parse_name : string -> option string.

Lemma matches_scan (args : list string) (pkg : wiki_package) (h : heap) :
  pkg_ok h pkg -> args <> [] ->
  matches parse_name args pkg h =
  Some (scan args (scanned parse_name h pkg) 0, h).
Proof.
  intros Hok Hargs. rewrite matches_run by exact Hok.
  now rewrite length_nonempty.
Qed.

Lemma all_present (vs : list (option string)) :
  ~ In None vs -> exists ss, vs = map Some ss.
Proof.
  induction vs as [|[s|] vs IH]; intros Hno.
  - now exists [].
  - destruct IH as [ss ->]; [intros H; apply Hno; now right|].
    now exists (s :: ss).
  - exfalso. apply Hno. now left.
Qed.

(** C2. For a query that is not empty, a record for which one of the
    four scanned values (short name, description, repo, href) is absent
    is not a match: [matches] returns 0, whatever the other values are
    and whether or not a value scanned earlier contained a query term. *)
Theorem matches_absent_value (args : list string) (pkg : wiki_package)
    (h : heap) :
  pkg_ok h pkg -> args <> [] ->
  In None (scanned parse_name h pkg) ->
  matches parse_name args pkg h = Some (0, h).
Proof.
  intros Hok Hargs Habs.
  rewrite matches_scan by assumption.
  now rewrite scan_absent.
Qed.

(** C3, as amended. For a query that is not empty, once a query term is
    a substring of one of the four lowercased values, taken in the order
    short name, description, repo, href, the record is a match whatever
    the values scanned after it contain, as long as each of the four is
    present; when a value scanned after it is absent the record is not a
    match. *)
Theorem matches_first_hit (args : list string) (pkg : wiki_package)
    (h : heap) (before after : list (option string)) (v a : string) :
  pkg_ok h pkg ->
  scanned parse_name h pkg = (before ++ Some v :: after)%list ->
  In a args -> is_substring a (case_lower v) ->
  ~ In None before ->
  (~ In None after -> matches parse_name args pkg h = Some (1, h)) /\
  (In None after -> matches parse_name args pkg h = Some (0, h)).
Proof.
  intros Hok Hsc Ha Hsub Hbefore.
  assert (args <> []) as Hargs by (intros ->; contradiction).
  rewrite matches_scan by assumption. rewrite Hsc.
  split; intros Hafter.
  - destruct (all_present (before ++ Some v :: after)) as [ss Hss].
    { intros [H|[H|H]]%in_app_or; [tauto | discriminate | tauto]. }
    assert (In v ss) as Hv.
    { assert (In (Some v) (map Some ss)) as Hin
        by (rewrite <- Hss; apply in_or_app; right; now left).
      apply in_map_iff in Hin as (x & [= ->] & Hx). exact Hx. }
    rewrite Hss. do 2 f_equal.
    apply scan_present; [now left|]. right. exists a, v. auto.
  - rewrite scan_absent; [reflexivity|].
    apply in_or_app. right. now right.
Qed.

(** C4. [matches] returns 1 for the empty query, whatever the package;
    for a query that is not empty and a record whose four scanned values
    are present it returns 1 when some query term is a substring of some
    lowercased value and 0 otherwise. *)
Theorem matches_any_term_any_field (args : list string)
    (pkg : wiki_package) (h : heap) :
  matches parse_name [] pkg h = Some (1, h) /\
  forall n d r u : string,
    pkg_ok h pkg -> args <> [] ->
    scanned parse_name h pkg = [Some n; Some d; Some r; Some u] ->
    exists rc,
      matches parse_name args pkg h = Some (rc, h) /\
      (rc = 0 \/ rc = 1) /\
      (rc = 1 <->
       exists a v, In a args /\
                   In v [case_lower n; case_lower d; case_lower r;
                         case_lower u] /\
                   is_substring a v).
Proof.
  split; [reflexivity|].
  intros n d r u Hok Hargs Hsc.
  rewrite matches_scan by assumption. rewrite Hsc.
  exists (scan args (map Some [n; d; r; u]) 0).
  split; [reflexivity|]. split; [apply scan_bit; now left|].
  rewrite scan_present by now left. split.
  - intros [H|(a & s & Ha & Hs & Hsub)]; [discriminate|].
    exists a, (case_lower s). split; [exact Ha|]. split; [|exact Hsub].
    change [case_lower n; case_lower d; case_lower r; case_lower u]
      with (map case_lower [n; d; r; u]).
    now apply in_map.
  - intros (a & v & Ha & Hv & Hsub). right.
    change [case_lower n; case_lower d; case_lower r; case_lower u]
      with (map case_lower [n; d; r; u]) in Hv.
    apply in_map_iff in Hv as (s & <- & Hs). eauto.
Qed.

End MatcherClaims.

Lemma bar_in_bar : is_substring "bar" (case_lower "bar").
Proof. exists EmptyString, EmptyString. reflexivity. Qed.

Lemma matches_absent_value_witness :
  matches parse_name_spec ["bar"] example_pkg_no_description example_heap
  = Some (0, example_heap).
Proof.
  apply matches_absent_value.
  - exact example_pkg_no_description_ok.
  - discriminate.
  - vm_compute. right. left. reflexivity.
Defined.

(** The short name of [foo/bar] contains the term [bar], and the record
    is still not a match, its description being absent. *)
Lemma matches_hit_then_absent :
  scanned parse_name_spec example_heap example_pkg_no_description
  = [Some "bar"; None; Some "foo/bar"; Some "https://x/bar"] /\
  is_substring "bar" (case_lower "bar") /\
  matches parse_name_spec ["bar"] example_pkg_no_description example_heap
  = Some (0, example_heap).
Proof.
  split; [reflexivity|]. split; [exact bar_in_bar|].
  vm_compute. reflexivity.
Qed.

Lemma matches_first_hit_witness :
  matches parse_name_spec ["bar"] example_pkg example_heap
  = Some (1, example_heap).
Proof.
  apply (matches_first_hit parse_name_spec ["bar"] example_pkg example_heap
           [] [Some "A bar tool"; Some "foo/bar"; Some "https://x/bar"]
           "bar" "bar").
  - exact example_pkg_ok.
  - reflexivity.
  - left. reflexivity.
  - exact bar_in_bar.
  - intros [].
  - intros [H|[H|[H|[]]]]; discriminate.
Defined.

Lemma matches_any_term_any_field_witness :
  exists rc,
    matches parse_name_spec ["zzz"; "bar"] example_pkg example_heap
    = Some (rc, example_heap) /\
    (rc = 0 \/ rc = 1) /\
    (rc = 1 <->
     exists a v, In a ["zzz"; "bar"] /\
                 In v [case_lower "bar"; case_lower "A bar tool";
                       case_lower "foo/bar"; case_lower "https://x/bar"] /\
                 is_substring a v).
Proof.
  apply (proj2 (matches_any_term_any_field parse_name_spec ["zzz"; "bar"]
                  example_pkg example_heap)).
  - exact example_pkg_ok.
  - discriminate.
  - reflexivity.
Defined.

(** ** Options *)

Lemma command_parse_color (flags : list cli_flag) (o : opts) :
  opt_color (command_parse flags o) =
  if given Flag_no_color flags then 0 else opt_color o.
Proof.
  unfold command_parse. revert o.
  induction flags as [|f flags IH]; intros o; simpl; [reflexivity|].
  rewrite IH. destruct f; simpl; try reflexivity.
  now destruct (given Flag_no_color flags).
Qed.

Lemma command_parse_cache (flags : list cli_flag) (o : opts) :
  opt_cache (command_parse flags o) =
  if given Flag_skip_cache flags then 0 else opt_cache o.
Proof.
  unfold command_parse. revert o.
  induction flags as [|f flags IH]; intros o; simpl; [reflexivity|].
  rewrite IH. destruct f; simpl; try reflexivity.
  now destruct (given Flag_skip_cache flags).
Qed.

Lemma command_parse_json (flags : list cli_flag) (o : opts) :
  opt_json (command_parse flags o) =
  if given Flag_json flags then 1 else opt_json o.
Proof.
  unfold command_parse. revert o.
  induction flags as [|f flags IH]; intros o; simpl; [reflexivity|].
  rewrite IH. destruct f; simpl; try reflexivity.
  now destruct (given Flag_json flags).
Qed.

(** C10. With no flag on the command line the run has colour on
    ([opt_color = 1]), the cache on ([opt_cache = 1]) and text output
    ([opt_json = 0]); a callback changes its own option and no other, so
    that after any command line each option depends on its own flag
    only. *)
Theorem default_options (flags : list cli_flag) (o : opts) :
  run_opts [] = {| opt_color := 1; opt_cache := 1; opt_json := 0 |} /\
  (setopt_nocolor o =
     {| opt_color := 0; opt_cache := opt_cache o; opt_json := opt_json o |} /\
   setopt_nocache o =
     {| opt_color := opt_color o; opt_cache := 0; opt_json := opt_json o |} /\
   setopt_json o =
     {| opt_color := opt_color o; opt_cache := opt_cache o; opt_json := 1 |}) /\
  run_opts flags =
    {| opt_color := if given Flag_no_color flags then 0 else 1;
       opt_cache := if given Flag_skip_cache flags then 0 else 1;
       opt_json := if given Flag_json flags then 1 else 0 |}.
Proof.
  split; [reflexivity|]. split; [repeat split|].
  unfold run_opts.
  pose proof (command_parse_color flags (main_defaults static_opts)) as Hc.
  pose proof (command_parse_cache flags (main_defaults static_opts)) as Hk.
  pose proof (command_parse_json flags (main_defaults static_opts)) as Hj.
  destruct (command_parse flags (main_defaults static_opts)) as [c k j].
  simpl in Hc, Hk, Hj. now subst.
Qed.

(** ** Rendering one package *)

Lemma arg_s_run (h : heap) (p : ptr) (s : string) :
  deref h p = Some s -> arg_s p h = Some (s, h).
Proof.
  destruct p as [l|]; simpl; [|discriminate].
  intros Hs. unfold load. now rewrite Hs.
Qed.

Lemma display_package_run (h : heap) (pkg : wiki_package)
    (hl tx : cc_color_t) (r u d : string) :
  deref h (repo pkg) = Some r -> deref h (href pkg) = Some u ->
  deref h (description pkg) = Some d ->
  display_package pkg hl tx h = Some (block hl tx r u d, h).
Proof.
  intros Hr Hu Hd. unfold display_package, bind.
  unfold wiki_package_get_repo, wiki_package_get_href,
    wiki_package_get_description.
  now rewrite (arg_s_run _ _ _ Hr), (arg_s_run _ _ _ Hu), (arg_s_run _ _ _ Hd).
Qed.

Lemma json_object_set_string_run (h : heap)
    (members : list (string * JSON_Value)) (name : string) (p : ptr) :
  ptr_ok h p ->
  json_object_set_string members name p h =
  Some (set_member name (member_string h p) members, h).
Proof.
  destruct p as [l|]; simpl; [|reflexivity].
  intros [s Hs]. unfold bind, load, member_string. simpl. now rewrite Hs.
Qed.

Lemma add_package_to_json_run (h : heap) (pkg : wiki_package)
    (json_list : list JSON_Value) :
  pkg_ok h pkg ->
  add_package_to_json pkg json_list h =
  Some ((json_list ++ [pkg_json h pkg])%list, h).
Proof.
  intros (Hrepo & Hhref & Hdesc & Hcat). unfold add_package_to_json, bind.
  unfold wiki_package_get_repo, wiki_package_get_href,
    wiki_package_get_description, wiki_package_get_category.
  rewrite json_object_set_string_run by exact Hrepo.
  rewrite json_object_set_string_run by exact Hhref.
  rewrite json_object_set_string_run by exact Hdesc.
  rewrite json_object_set_string_run by exact Hcat.
  reflexivity.
Qed.

(** ** The command *)

Section CommandClaims.

Variable parse_name : string -> option string.

Lemma matches_value (args : list string) (pkg : wiki_package) (h : heap) :
  pkg_ok h pkg ->
  matches parse_name args pkg h = Some (match_value parse_name args h pkg, h).
Proof. apply matches_run. Qed.

Lemma matched_printable (args : list string) (pkg : wiki_package) (h : heap) :
  args <> [] -> matched parse_name args h pkg = true -> printable h pkg.
Proof.
  intros Hargs. unfold matched, match_value.
  rewrite length_nonempty by exact Hargs.
  intros Hm. apply negb_true_iff, Z.eqb_neq in Hm.
  assert (~ In None (scanned parse_name h pkg)) as Hno
    by (intros Habs; apply Hm, scan_absent, Habs).
  unfold scanned in Hno. simpl in Hno. unfold printable.
  destruct (deref h (repo pkg)), (deref h (href pkg)),
    (deref h (description pkg)); try tauto; repeat split; eauto.
Qed.

(** C6. Matching leaves the strings of the package as they were: after
    [matches] has run, with its lowercasing of the copies it makes, the
    JSON object built for the package holds the four strings of the
    record as they are in the registry, and the text block prints its
    repo, href and description as they are in the registry. *)
Theorem rendered_values_verbatim (args : list string) (pkg : wiki_package)
    (h : heap) (json_list : list JSON_Value) (hl tx : cc_color_t)
    (r u d c : string) :
  deref h (repo pkg) = Some r -> deref h (href pkg) = Some u ->
  deref h (description pkg) = Some d -> deref h (category pkg) = Some c ->
  (matches parse_name args pkg ;;; add_package_to_json pkg json_list) h =
    Some ((json_list ++
           [JSONObject [("repo", JSONString r); ("href", JSONString u);
                        ("description", JSONString d);
                        ("category", JSONString c)]])%list, h) /\
  (matches parse_name args pkg ;;; display_package pkg hl tx) h =
    Some ([Cc_fprintf hl ("  " ++ r ++ newline)%string;
           Printf "  url: ";
           Cc_fprintf tx (u ++ newline)%string;
           Printf "  desc: ";
           Cc_fprintf tx (d ++ newline)%string;
           Printf newline], h).
Proof.
  intros Hr Hu Hd Hc.
  assert (pkg_ok h pkg) as Hok.
  { unfold pkg_ok, ptr_ok, deref in *.
    destruct (repo pkg), (href pkg), (description pkg), (category pkg);
      repeat split; eauto. }
  unfold bind. rewrite matches_value by exact Hok. split.
  - rewrite add_package_to_json_run by exact Hok.
    unfold pkg_json, member_string. now rewrite Hr, Hu, Hd, Hc.
  - now rewrite (display_package_run h pkg hl tx r u d).
Qed.

Lemma iterate_json (o : opts) (args : list string) (hl tx : cc_color_t)
    (pkgs : list wiki_package) (json_list : list JSON_Value)
    (out : list out_event) (h : heap) :
  (opt_json o =? 0) = false -> Forall (pkg_ok h) pkgs ->
  iterate parse_name o args hl tx pkgs json_list out h =
  Some ((json_list ++
         map (pkg_json h) (List.filter (matched parse_name args h) pkgs),
         out)%list, h).
Proof.
  intros Hj Hok. revert json_list.
  induction Hok as [|pkg pkgs Hpkg Hok IH]; intros json_list; simpl.
  - now rewrite app_nil_r.
  - unfold bind. rewrite matches_value by exact Hpkg.
    unfold matched at 1.
    destruct (match_value parse_name args h pkg =? 0); simpl.
    + apply IH.
    + rewrite Hj, add_package_to_json_run by exact Hpkg.
      rewrite IH. now rewrite <- app_assoc.
Qed.

Lemma iterate_text (o : opts) (args : list string) (hl tx : cc_color_t)
    (pkgs : list wiki_package) (json_list : list JSON_Value)
    (out : list out_event) (h : heap) :
  (opt_json o =? 0) = true -> Forall (pkg_ok h) pkgs ->
  Forall (fun pkg => matched parse_name args h pkg = true -> printable h pkg)
    pkgs ->
  iterate parse_name o args hl tx pkgs json_list out h =
  Some ((json_list,
         out ++
         concat (map (pkg_block hl tx h)
                   (List.filter (matched parse_name args h) pkgs)))%list, h).
Proof.
  intros Hj Hok Hpr. revert out.
  induction Hok as [|pkg pkgs Hpkg Hok IH]; intros out; simpl.
  - now rewrite app_nil_r.
  - apply Forall_cons_1 in Hpr as [Hp Hpr].
    unfold bind. rewrite matches_value by exact Hpkg.
    unfold matched at 1 in Hp. unfold matched at 1.
    destruct (match_value parse_name args h pkg =? 0); simpl.
    + now apply IH.
    + destruct (Hp eq_refl) as ([r Hr] & [u Hu] & [d Hd]).
      rewrite Hj, (display_package_run h pkg hl tx r u d) by assumption.
      rewrite IH by exact Hpr. unfold pkg_block at 2.
      rewrite Hr, Hu, Hd. simpl. now rewrite <- app_assoc.
Qed.

End CommandClaims.

Section RunClaims.

Variable parse_name : string -> option string.

Lemma run_opts_json (flags : list cli_flag) :
  (opt_json (run_opts flags) =? 0) = negb (given Flag_json flags).
Proof.
  unfold run_opts. rewrite command_parse_json.
  now destruct (given Flag_json flags).
Qed.

Lemma run_opts_color (flags : list cli_flag) :
  (opt_color (run_opts flags) =? 0) = given Flag_no_color flags.
Proof.
  unfold run_opts. rewrite command_parse_color.
  now destruct (given Flag_no_color flags).
Qed.

(** C1, on the code. [main] does not look at the result of
    [wiki_registry_fetch]: a run whose fetch failed is the run of a
    successful fetch with the same packages, and with no package to
    iterate over it returns 0, reports no error and writes the blank
    line, followed in JSON mode by the empty array. *)
Theorem fetch_failure_ignored (flags : list cli_flag) (argv : list string)
    (pkgs : list wiki_package) (h : heap) :
  main parse_name flags argv {| fetch_ok := false; packages := pkgs |} h =
  main parse_name flags argv {| fetch_ok := true; packages := pkgs |} h /\
  main parse_name flags argv {| fetch_ok := false; packages := [] |} h =
  Some ({| exit_code := 0;
           stdout := Printf newline ::
                     (if given Flag_json flags
                      then [Puts_json (JSONArray [])] else []);
           errors := [] |}, h).
Proof.
  split; [reflexivity|].
  unfold main, bind. simpl. fold (run_opts flags).
  rewrite run_opts_json. now destruct (given Flag_json flags).
Qed.

(** C5. Matching through the command is case-insensitive in the query:
    with a query term replaced by its uppercased form the lowercased
    query is the same, so [matches] returns the same value for every
    package and the whole run is the same. *)
Theorem query_case_insensitive (flags : list cli_flag)
    (before after : list string) (term : string) (pkg : wiki_package)
    (registry : wiki_registry) (h : heap) :
  lower_query (before ++ case_upper term :: after) =
  lower_query (before ++ term :: after) /\
  matches parse_name (lower_query (before ++ case_upper term :: after)) pkg h =
  matches parse_name (lower_query (before ++ term :: after)) pkg h /\
  main parse_name flags (before ++ case_upper term :: after) registry h =
  main parse_name flags (before ++ term :: after) registry h.
Proof.
  assert (lower_query (before ++ case_upper term :: after) =
          lower_query (before ++ term :: after)) as Hq.
  { unfold lower_query. rewrite !map_app. simpl.
    now rewrite case_lower_upper. }
  split; [exact Hq|]. split; [now rewrite Hq|].
  unfold main. now rewrite Hq.
Qed.

(** C7, as amended. In JSON mode the matched records are accumulated, in
    registry order, into one array of objects with the string members
    [repo], [href], [description], [category]; the array is serialized
    once, after the iteration, and written followed by a newline.
    Standard output is the newline that [main] writes before iterating,
    then that serialization; the run returns 0. *)
Theorem json_mode_output (flags : list cli_flag) (argv : list string)
    (registry : wiki_registry) (h : heap) :
  given Flag_json flags = true ->
  Forall (pkg_ok h) (packages registry) ->
  main parse_name flags argv registry h =
  Some ({| exit_code := 0;
           stdout :=
             [Printf newline;
              Puts_json
                (JSONArray
                   (map (pkg_json h)
                      (List.filter
                         (matched parse_name (lower_query argv) h)
                         (packages registry))))];
           errors := [] |}, h).
Proof.
  intros Hj Hok. unfold main, bind. fold (run_opts flags).
  pose proof (run_opts_json flags) as Hz. rewrite Hj in Hz. simpl in Hz.
  rewrite iterate_json by assumption. simpl. now rewrite Hz.
Qed.

(** C8. In text mode standard output is one blank line, then, for each
    matched record in registry order, a block: the line of the repo in
    the highlight colour, the line [url: ] with the href, the line
    [desc: ] with the description (each indented by two spaces), and a
    blank line. *)
Theorem text_mode_output (flags : list cli_flag) (argv : list string)
    (registry : wiki_registry) (h : heap) :
  given Flag_json flags = false ->
  Forall (pkg_ok h) (packages registry) ->
  (argv = [] -> Forall (printable h) (packages registry)) ->
  main parse_name flags argv registry h =
  Some ({| exit_code := 0;
           stdout :=
             Printf newline ::
             concat
               (map (pkg_block
                       (if given Flag_no_color flags
                        then CC_FG_NONE else CC_FG_DARK_CYAN)
                       (if given Flag_no_color flags
                        then CC_FG_NONE else CC_FG_DARK_GRAY) h)
                  (List.filter
                     (matched parse_name (lower_query argv) h)
                     (packages registry)));
           errors := [] |}, h).
Proof.
  intros Hj Hok Hpr. unfold main, bind. fold (run_opts flags).
  pose proof (run_opts_json flags) as Hz. rewrite Hj in Hz. simpl in Hz.
  rewrite run_opts_color.
  rewrite iterate_text; [simpl; now rewrite Hz | exact Hz | exact Hok |].
  destruct argv as [|a argv].
  - eapply Forall_impl; [apply Hpr; reflexivity|]. auto.
  - apply Forall_forall. intros pkg _. now apply matched_printable.
Qed.

End RunClaims.

Lemma example_registry_ok :
  Forall (pkg_ok example_heap) (packages example_registry).
Proof. repeat constructor; vm_compute; eauto. Qed.

Lemma rendered_values_verbatim_witness :
  (matches parse_name_spec ["tool"] example_pkg ;;;
   add_package_to_json example_pkg []) example_heap =
    Some ([JSONObject [("repo", JSONString "foo/bar");
                       ("href", JSONString "https://x/bar");
                       ("description", JSONString "A bar tool");
                       ("category", JSONString "tools")]], example_heap) /\
  (matches parse_name_spec ["tool"] example_pkg ;;;
   display_package example_pkg CC_FG_DARK_CYAN CC_FG_DARK_GRAY) example_heap =
    Some ([Cc_fprintf CC_FG_DARK_CYAN ("  " ++ "foo/bar" ++ newline)%string;
           Printf "  url: ";
           Cc_fprintf CC_FG_DARK_GRAY ("https://x/bar" ++ newline)%string;
           Printf "  desc: ";
           Cc_fprintf CC_FG_DARK_GRAY ("A bar tool" ++ newline)%string;
           Printf newline], example_heap).
Proof.
  apply (rendered_values_verbatim parse_name_spec ["tool"] example_pkg
           example_heap [] CC_FG_DARK_CYAN CC_FG_DARK_GRAY
           "foo/bar" "https://x/bar" "A bar tool" "tools");
    reflexivity.
Defined.

(** In JSON mode with nothing to list, standard output is not the
    serialized array alone: the blank line comes first. *)
Lemma json_mode_leading_newline :
  exists r,
    main parse_name_spec [Flag_json] [] empty_registry ∅ = Some (r, ∅) /\
    stdout r = [Printf newline; Puts_json (JSONArray [])] /\
    stdout r <> [Puts_json (JSONArray [])].
Proof.
  exists {| exit_code := 0;
            stdout := [Printf newline; Puts_json (JSONArray [])];
            errors := [] |}.
  split; [vm_compute; reflexivity|]. split; [reflexivity | discriminate].
Qed.

Lemma json_mode_output_witness :
  main parse_name_spec [Flag_json] ["BAR"] example_registry example_heap =
  Some ({| exit_code := 0;
           stdout :=
             [Printf newline;
              Puts_json
                (JSONArray
                   (map (pkg_json example_heap)
                      (List.filter
                         (matched parse_name_spec (lower_query ["BAR"])
                            example_heap)
                         (packages example_registry))))];
           errors := [] |}, example_heap).
Proof.
  apply json_mode_output; [reflexivity | exact example_registry_ok].
Defined.

Lemma text_mode_output_witness :
  main parse_name_spec [] ["bar"] example_registry example_heap =
  Some ({| exit_code := 0;
           stdout :=
             Printf newline ::
             concat
               (map (pkg_block CC_FG_DARK_CYAN CC_FG_DARK_GRAY example_heap)
                  (List.filter
                     (matched parse_name_spec (lower_query ["bar"])
                        example_heap)
                     (packages example_registry)));
           errors := [] |}, example_heap).
Proof.
  apply (text_mode_output parse_name_spec [] ["bar"] example_registry
           example_heap);
    [reflexivity | exact example_registry_ok | discriminate].
Defined.

(** The run of the spec's scenario, written out. *)
Example scenario_text :
  exists r,
    main parse_name_spec [] ["bar"] example_registry example_heap
    = Some (r, example_heap) /\
    out_text (stdout r) =
    (newline ++ "  foo/bar" ++ newline ++ "  url: https://x/bar" ++ newline
     ++ "  desc: A bar tool" ++ newline ++ newline)%string.
Proof.
  exists {| exit_code := 0;
            stdout := Printf newline ::
                      pkg_block CC_FG_DARK_CYAN CC_FG_DARK_GRAY example_heap
                        example_pkg;
            errors := [] |}.
  split; vm_compute; reflexivity.
Qed.

(** A query in upper case finds the lowercased description. *)
Example scenario_upper_case_query :
  matches parse_name_spec (lower_query ["A BAR"]) example_pkg example_heap
  = Some (1, example_heap) /\
  matches parse_name_spec ["A BAR"] example_pkg example_heap
  = Some (0, example_heap).
Proof. split; vm_compute; reflexivity. Qed.

Example scenario_no_match :
  matches parse_name_spec ["zzz"] example_pkg example_heap
  = Some (0, example_heap) /\
  main parse_name_spec [Flag_json] ["zzz"] example_registry example_heap
  = Some ({| exit_code := 0;
             stdout := [Printf newline; Puts_json (JSONArray [])];
             errors := [] |}, example_heap).
Proof. split; vm_compute; reflexivity. Qed.

(** ** The search cache *)

(** What a call of [wiki_html_cache] does, by the value of [opt_cache]
    and by what the cache and the network answer. *)
Lemma wiki_html_cache_paths (flags : list cli_flag) (o : opts)
    (env : search_env) :
  (given Flag_skip_cache flags = true -> opt_cache (run_opts flags) = 0) /\
  (opt_cache o = 0 ->
   ~ In Clib_cache_read_search (snd (wiki_html_cache o env)) /\
   In (Http_get CLIB_WIKI_URL) (snd (wiki_html_cache o env))) /\
  (forall html,
      In (Http_get CLIB_WIKI_URL) (snd (wiki_html_cache o env)) ->
      http_ok env = true -> http_data env = Some html ->
      fst (wiki_html_cache o env) = Some html /\
      In (Clib_cache_save_search html) (snd (wiki_html_cache o env))) /\
  (forall data,
      opt_cache o <> 0 -> cache_has_search env = true ->
      cache_read_search env = Some data ->
      wiki_html_cache o env =
      (Some data, [Clib_cache_has_search; Clib_cache_read_search])).
Proof.
  split; [|split; [|split]].
  - intros Hc. unfold run_opts. rewrite command_parse_cache. now rewrite Hc.
  - intros Hz. unfold wiki_html_cache. rewrite Hz. simpl.
    rewrite andb_false_r. simpl.
    destruct (http_ok env); simpl; [destruct (http_data env); simpl|];
      (split; [|tauto]); intros H;
      repeat (destruct H as [H|H]; [discriminate|]); exact H.
  - intros html Hget Hok Hdata. revert Hget. unfold wiki_html_cache.
    rewrite Hok, Hdata. simpl.
    destruct (cache_has_search env && negb (opt_cache o =? 0)).
    + destruct (cache_read_search env); simpl.
      * intros H. repeat (destruct H as [H|H]; [discriminate|]). destruct H.
      * intros _. split; [reflexivity|]. do 4 right. now left.
    + simpl. intros _. split; [reflexivity|]. do 3 right. now left.
  - intros data Hnz Hhas Hread. unfold wiki_html_cache.
    apply Z.eqb_neq in Hnz. now rewrite Hhas, Hnz, Hread.
Qed.

(** * Further properties of the matcher *)

Lemma compare_loop_same_terms (v : string) (args args' : list string)
    (rc : Z) :
  (forall a, In a args <-> In a args') ->
  compare_loop v args rc = compare_loop v args' rc.
Proof.
  intros Hsame. destruct (compare_loop_dec v args) as [Hhit|Hmiss].
  - rewrite !compare_loop_hit; [reflexivity | | exact Hhit].
    destruct Hhit as (a & Ha & Hsub). exists a. split; [now apply Hsame|easy].
  - rewrite !compare_loop_miss; [reflexivity | | exact Hmiss].
    intros (a & Ha & Hsub). apply Hmiss. exists a.
    split; [now apply Hsame|easy].
Qed.

Lemma scan_same_terms (args args' : list string)
    (vs : list (option string)) (rc : Z) :
  (forall a, In a args <-> In a args') ->
  scan args vs rc = scan args' vs rc.
Proof.
  intros Hsame. revert rc.
  induction vs as [|[s|] vs IH]; intros rc; simpl; try reflexivity.
  rewrite (compare_loop_same_terms _ args args') by exact Hsame. apply IH.
Qed.

Lemma scan_more_terms (args args' : list string)
    (vs : list (option string)) (rc rc' : Z) :
  (forall a, In a args -> In a args') ->
  rc = 0 \/ rc = 1 -> rc' = 0 \/ rc' = 1 -> (rc = 1 -> rc' = 1) ->
  scan args vs rc = 1 -> scan args' vs rc' = 1.
Proof.
  intros Hincl. revert rc rc'.
  induction vs as [|[s|] vs IH]; intros rc rc' Hrc Hrc' Himp; simpl.
  - exact Himp.
  - apply IH; try (apply compare_loop_bit; assumption).
    rewrite !compare_loop_one by assumption.
    intros [H|(a & Ha & Hsub)]; [left; auto | right; eauto].
  - discriminate.
Qed.

Lemma scan_no_hit (args : list string) (vs : list (option string)) :
  (forall a s, In a args -> ~ is_substring a (case_lower s)) ->
  scan args vs 0 = 0.
Proof.
  intros Hno. induction vs as [|[s|] vs IH]; simpl; try reflexivity.
  rewrite compare_loop_miss; [exact IH|].
  intros (a & Ha & Hsub). exact (Hno a s Ha Hsub).
Qed.

Lemma scan_lowered (args : list string) (vs vs' : list (option string))
    (rc : Z) :
  map (option_map case_lower) vs = map (option_map case_lower) vs' ->
  scan args vs rc = scan args vs' rc.
Proof.
  revert vs' rc.
  induction vs as [|[s|] vs IH]; intros [|[s'|] vs'] rc H; simpl in *;
    try discriminate; try reflexivity.
  injection H as Hs Hvs. rewrite Hs. now apply IH.
Qed.

Lemma lower_char_not_upper (c : ascii) : is_upper (lower_char c) = false.
Proof.
  destruct c as [[] [] [] [] [] [] [] []]; vm_compute; reflexivity.
Qed.

Lemma has_upper_app (s1 s2 : string) :
  has_upper (s1 ++ s2)%string = has_upper s1 || has_upper s2.
Proof.
  induction s1 as [|c s1 IH]; simpl; [reflexivity|].
  now rewrite IH, orb_assoc.
Qed.

Lemma case_lower_no_upper (s : string) : has_upper (case_lower s) = false.
Proof.
  unfold case_lower. induction s as [|c s IH]; simpl; [reflexivity|].
  now rewrite lower_char_not_upper, IH.
Qed.

Lemma substring_of_lowered (t v : string) :
  is_substring t (case_lower v) -> has_upper t = false.
Proof.
  intros (pre & post & H).
  pose proof (case_lower_no_upper v) as Hv.
  rewrite H, !has_upper_app in Hv.
  apply orb_false_iff in Hv as [_ Hv].
  now apply orb_false_iff in Hv as [Hv _].
Qed.

Lemma example_pkg_upper_ok : pkg_ok example_heap_upper example_pkg.
Proof. repeat split; vm_compute; eauto. Qed.

Section MatcherFurther.

Variable parse_name : string -> option string.

(** X1. For a package whose pointers are usable, [matches] returns, its
    value is 0 or 1, and the heap is left exactly as it was found: every
    temporary is freed and no string of the registry is changed. *)
Theorem matches_neutral (args : list string) (pkg : wiki_package)
    (h : heap) :
  pkg_ok h pkg ->
  exists rc, matches parse_name args pkg h = Some (rc, h) /\
             (rc = 0 \/ rc = 1).
Proof.
  intros Hok. rewrite matches_run by exact Hok.
  eexists. split; [reflexivity|].
  destruct (0 =? Z.of_nat (length args)); [now right|].
  apply scan_bit. now left.
Qed.

(** X2. The value of [matches] depends on which terms the query holds,
    not on their order or on repetitions. *)
Theorem matches_same_terms (args args' : list string) (pkg : wiki_package)
    (h : heap) :
  pkg_ok h pkg ->
  (forall a, In a args <-> In a args') ->
  matches parse_name args pkg h = matches parse_name args' pkg h.
Proof.
  intros Hok Hsame. rewrite !matches_run by exact Hok.
  rewrite (scan_same_terms args args') by exact Hsame.
  destruct args as [|a args], args' as [|a' args']; try reflexivity.
  - exfalso. apply (Hsame a'). now left.
  - exfalso. apply (Hsame a). now left.
Qed.

(** X3. A match is never lost by adding terms to a query that is not
    empty. *)
Theorem matches_more_terms (args args' : list string) (pkg : wiki_package)
    (h : heap) :
  pkg_ok h pkg -> args <> [] ->
  (forall a, In a args -> In a args') ->
  matches parse_name args pkg h = Some (1, h) ->
  matches parse_name args' pkg h = Some (1, h).
Proof.
  intros Hok Hargs Hincl.
  assert (args' <> []) as Hargs'.
  { destruct args as [|a args]; [congruence|].
    intros ->. apply (Hincl a). now left. }
  rewrite !matches_run by exact Hok.
  rewrite !length_nonempty by assumption.
  intros [= H]. do 2 f_equal.
  apply (scan_more_terms args args' _ 0 0); auto.
Qed.

(** X4. The empty string as a query term matches every record whose
    four scanned values are present. *)
Theorem matches_empty_term (args : list string) (pkg : wiki_package)
    (h : heap) :
  pkg_ok h pkg -> In EmptyString args ->
  ~ In None (scanned parse_name h pkg) ->
  matches parse_name args pkg h = Some (1, h).
Proof.
  intros Hok Hin Hpresent.
  assert (args <> []) as Hargs by (intros ->; contradiction).
  rewrite matches_run by exact Hok. rewrite length_nonempty by exact Hargs.
  destruct (all_present _ Hpresent) as [ss Hss]. rewrite Hss.
  do 2 f_equal. apply scan_present; [now left|]. right.
  destruct ss as [|s ss]; [discriminate|].
  exists EmptyString, s. split; [exact Hin|]. split; [now left|].
  exists EmptyString, (case_lower s). reflexivity.
Qed.

(** X5. [matches] lowercases the values and not the terms: called with
    a query in which every term holds an upper-case letter, it returns
    0 for every package. *)
Theorem matches_upper_terms (args : list string) (pkg : wiki_package)
    (h : heap) :
  pkg_ok h pkg -> args <> [] ->
  Forall (fun t => has_upper t = true) args ->
  matches parse_name args pkg h = Some (0, h).
Proof.
  intros Hok Hargs Hup.
  rewrite matches_run by exact Hok. rewrite length_nonempty by exact Hargs.
  do 2 f_equal. apply scan_no_hit. intros a s Ha Hsub.
  apply substring_of_lowered in Hsub.
  rewrite Forall_forall in Hup. specialize (Hup a).
  rewrite list_elem_of_In in Hup. rewrite (Hup Ha) in Hsub. discriminate.
Qed.

(** X6. The value of [matches] depends on the scanned values up to
    case: two packages whose four values are the same once lowercased
    get the same value. *)
Theorem matches_field_case (args : list string) (pkg pkg' : wiki_package)
    (h h' : heap) :
  pkg_ok h pkg -> pkg_ok h' pkg' ->
  map (option_map case_lower) (scanned parse_name h pkg) =
  map (option_map case_lower) (scanned parse_name h' pkg') ->
  exists rc, matches parse_name args pkg h = Some (rc, h) /\
             matches parse_name args pkg' h' = Some (rc, h').
Proof.
  intros Hok Hok' Hsame. rewrite !matches_run by assumption.
  rewrite (scan_lowered args _ _ 0 Hsame). eauto.
Qed.

End MatcherFurther.

Lemma matches_neutral_witness :
  exists rc,
    matches parse_name_spec ["bar"] example_pkg example_heap
    = Some (rc, example_heap) /\ (rc = 0 \/ rc = 1).
Proof. apply matches_neutral. exact example_pkg_ok. Defined.

Lemma matches_same_terms_witness :
  matches parse_name_spec ["zzz"; "bar"] example_pkg example_heap =
  matches parse_name_spec ["bar"; "zzz"; "bar"] example_pkg example_heap.
Proof.
  apply matches_same_terms; [exact example_pkg_ok|].
  intros a. simpl. tauto.
Defined.

Lemma matches_more_terms_witness :
  matches parse_name_spec ["zzz"; "bar"] example_pkg example_heap
  = Some (1, example_heap).
Proof.
  apply (matches_more_terms parse_name_spec ["bar"] ["zzz"; "bar"]).
  - exact example_pkg_ok.
  - discriminate.
  - intros a [<-|[]]. right. now left.
  - vm_compute. reflexivity.
Defined.

Lemma matches_empty_term_witness :
  matches parse_name_spec [EmptyString] example_pkg example_heap
  = Some (1, example_heap).
Proof.
  apply matches_empty_term.
  - exact example_pkg_ok.
  - now left.
  - vm_compute. intros [H|[H|[H|[H|[]]]]]; discriminate.
Defined.

Lemma matches_upper_terms_witness :
  matches parse_name_spec ["Bar"] example_pkg example_heap
  = Some (0, example_heap).
Proof.
  apply matches_upper_terms.
  - exact example_pkg_ok.
  - discriminate.
  - repeat constructor.
Defined.

Lemma matches_field_case_witness :
  exists rc,
    matches parse_name_spec ["bar"] example_pkg example_heap
    = Some (rc, example_heap) /\
    matches parse_name_spec ["bar"] example_pkg example_heap_upper
    = Some (rc, example_heap_upper).
Proof.
  apply matches_field_case.
  - exact example_pkg_ok.
  - exact example_pkg_upper_ok.
  - vm_compute. reflexivity.
Defined.

(** * Further properties of the command *)

Lemma out_text_uncolor (out : list out_event) :
  out_text (map uncolor out) = out_text out.
Proof.
  induction out as [|[s|c s|v] out IH]; simpl; now rewrite ?IH.
Qed.

Lemma display_package_uncolor (pkg : wiki_package) (hl tx : cc_color_t)
    (h : heap) :
  display_package pkg CC_FG_NONE CC_FG_NONE h =
  match display_package pkg hl tx h with
  | Some (b, h') => Some (map uncolor b, h')
  | None => None
  end.
Proof.
  unfold display_package, bind.
  destruct (arg_s (wiki_package_get_repo pkg) h) as [[r h1]|];
    [|reflexivity].
  destruct (arg_s (wiki_package_get_href pkg) h1) as [[u h2]|];
    [|reflexivity].
  destruct (arg_s (wiki_package_get_description pkg) h2) as [[d h3]|];
    reflexivity.
Qed.

Section CommandFurther.

Variable parse_name : string -> option string.

Lemma iterate_opts (o o' : opts) (args : list string) (hl tx : cc_color_t)
    (pkgs : list wiki_package) (json_list : list JSON_Value)
    (out : list out_event) (h : heap) :
  opt_json o = opt_json o' ->
  iterate parse_name o args hl tx pkgs json_list out h =
  iterate parse_name o' args hl tx pkgs json_list out h.
Proof.
  intros Hj. revert json_list out h.
  induction pkgs as [|pkg pkgs IH]; intros json_list out h; simpl;
    [reflexivity|].
  unfold bind. destruct (matches parse_name args pkg h) as [[m h1]|];
    [|reflexivity].
  rewrite <- Hj. destruct (m =? 0); [apply IH|].
  destruct (opt_json o =? 0).
  - destruct (display_package pkg hl tx h1) as [[b h2]|]; [apply IH|easy].
  - destruct (add_package_to_json pkg json_list h1) as [[j h2]|];
      [apply IH|easy].
Qed.

Lemma iterate_uncolor (o : opts) (args : list string) (hl tx : cc_color_t)
    (pkgs : list wiki_package) (json_list : list JSON_Value)
    (out : list out_event) (h : heap) :
  iterate parse_name o args CC_FG_NONE CC_FG_NONE pkgs json_list
    (map uncolor out) h =
  match iterate parse_name o args hl tx pkgs json_list out h with
  | Some (r, h') => Some ((fst r, map uncolor (snd r)), h')
  | None => None
  end.
Proof.
  revert json_list out h.
  induction pkgs as [|pkg pkgs IH]; intros json_list out h; simpl;
    [reflexivity|].
  unfold bind. destruct (matches parse_name args pkg h) as [[m h1]|];
    [|reflexivity].
  destruct (m =? 0); [apply IH|].
  destruct (opt_json o =? 0).
  - rewrite (display_package_uncolor pkg hl tx h1).
    destruct (display_package pkg hl tx h1) as [[b h2]|]; [|reflexivity].
    rewrite <- map_app. apply IH.
  - destruct (add_package_to_json pkg json_list h1) as [[j h2]|];
      [apply IH|reflexivity].
Qed.

(** X7. Colours are cosmetic: with [--no-color] put before the other
    flags the run is the same run with every [cc_fprintf] given no
    colour, so the text written, the JSON, the value returned and the
    heap are the same. *)
Theorem no_color_same_text (flags : list cli_flag) (argv : list string)
    (registry : wiki_registry) (h : heap) :
  main parse_name (Flag_no_color :: flags) argv registry h =
  match main parse_name flags argv registry h with
  | Some (r, h') => Some (uncolor_run r, h')
  | None => None
  end /\
  forall r, out_text (stdout (uncolor_run r)) = out_text (stdout r).
Proof.
  split; [|intros r; apply out_text_uncolor].
  unfold main, bind.
  pose proof (command_parse_color (Flag_no_color :: flags)
                (main_defaults static_opts)) as Hc.
  pose proof (command_parse_json (Flag_no_color :: flags)
                (main_defaults static_opts)) as Hj.
  pose proof (command_parse_json flags (main_defaults static_opts)) as Hj'.
  simpl given in Hc, Hj. rewrite <- Hj' in Hj. rewrite Hc, Hj. simpl.
  rewrite (iterate_opts _ (command_parse flags (main_defaults static_opts)))
    by exact Hj.
  change [Printf newline] with (map uncolor [Printf newline]) at 1.
  rewrite (iterate_uncolor _ _
             (if opt_color (command_parse flags (main_defaults static_opts))
                 =? 0 then CC_FG_NONE else CC_FG_DARK_CYAN)
             (if opt_color (command_parse flags (main_defaults static_opts))
                 =? 0 then CC_FG_NONE else CC_FG_DARK_GRAY)).
  destruct (iterate parse_name _ _ _ _ _ _ _ h) as [[[j out] h1]|];
    [|reflexivity].
  simpl. unfold ret, uncolor_run. simpl.
  destruct (opt_json (command_parse flags (main_defaults static_opts)) =? 0);
    [reflexivity|].
  now rewrite map_app.
Qed.

(** X8. A run depends on the command line only through whether [-n]
    and whether [-j] occur on it: [-c], the order of the flags and
    their repetition change nothing. *)
Theorem main_flags (flags flags' : list cli_flag) (argv : list string)
    (registry : wiki_registry) (h : heap) :
  given Flag_no_color flags = given Flag_no_color flags' ->
  given Flag_json flags = given Flag_json flags' ->
  main parse_name flags argv registry h =
  main parse_name flags' argv registry h.
Proof.
  intros Hn Hj. unfold main.
  assert (opt_color (command_parse flags (main_defaults static_opts)) =
          opt_color (command_parse flags' (main_defaults static_opts))) as Hc
    by (rewrite !command_parse_color; now rewrite Hn).
  assert (opt_json (command_parse flags (main_defaults static_opts)) =
          opt_json (command_parse flags' (main_defaults static_opts))) as Hjs
    by (rewrite !command_parse_json; now rewrite Hj).
  unfold bind.
  rewrite (iterate_opts _ (command_parse flags' (main_defaults static_opts)))
    by exact Hjs.
  now rewrite Hc, Hjs.
Qed.

Lemma matched_empty_query (h : heap) (pkgs : list wiki_package) :
  List.filter (matched parse_name [] h) pkgs = pkgs.
Proof.
  induction pkgs as [|pkg pkgs IH]; simpl; [reflexivity|]. now rewrite IH.
Qed.

(** X9. With no query word every package of the registry is listed, in
    registry order: in JSON mode the array has one object per package;
    in text mode, when the repo, href and description of every package
    are there, there is one block per package. *)
Theorem empty_query_lists_all (flags : list cli_flag)
    (registry : wiki_registry) (h : heap) :
  Forall (pkg_ok h) (packages registry) ->
  (given Flag_json flags = true ->
   main parse_name flags [] registry h =
   Some ({| exit_code := 0;
            stdout := [Printf newline;
                       Puts_json
                         (JSONArray (map (pkg_json h) (packages registry)))];
            errors := [] |}, h)) /\
  (given Flag_json flags = false ->
   Forall (printable h) (packages registry) ->
   main parse_name flags [] registry h =
   Some ({| exit_code := 0;
            stdout :=
              Printf newline ::
              concat
                (map (pkg_block
                        (if given Flag_no_color flags
                         then CC_FG_NONE else CC_FG_DARK_CYAN)
                        (if given Flag_no_color flags
                         then CC_FG_NONE else CC_FG_DARK_GRAY) h)
                   (packages registry));
            errors := [] |}, h)).
Proof.
  intros Hok.
  pose proof (command_parse_color flags (main_defaults static_opts)) as Hc.
  pose proof (command_parse_json flags (main_defaults static_opts)) as Hj.
  simpl in Hc, Hj.
  split; [intros Hjson | intros Hjson Hpr]; unfold main, bind;
    rewrite Hjson in Hj.
  - rewrite iterate_json; [|now rewrite Hj | exact Hok].
    simpl. rewrite Hj. simpl. now rewrite matched_empty_query.
  - rewrite iterate_text; [|now rewrite Hj | exact Hok |].
    + simpl. rewrite Hj, Hc. simpl. rewrite matched_empty_query.
      now destruct (given Flag_no_color flags).
    + eapply Forall_impl; [exact Hpr|]. auto.
Qed.






End CommandFurther.


Lemma main_flags_witness :
  main parse_name_spec [Flag_skip_cache; Flag_json; Flag_no_color] ["bar"]
    example_registry example_heap =
  main parse_name_spec [Flag_no_color; Flag_json; Flag_json] ["bar"]
    example_registry example_heap.
Proof. apply main_flags; reflexivity. Defined.

Lemma example_registry_printable :
  Forall (printable example_heap) (packages example_registry).
Proof. repeat constructor; vm_compute; eauto. Qed.

Lemma empty_query_lists_all_witness :
  main parse_name_spec [Flag_json] [] example_registry example_heap =
  Some ({| exit_code := 0;
           stdout := [Printf newline;
                      Puts_json
                        (JSONArray
                           (map (pkg_json example_heap)
                              (packages example_registry)))];
           errors := [] |}, example_heap) /\
  main parse_name_spec [] [] example_registry example_heap =
  Some ({| exit_code := 0;
           stdout :=
             Printf newline ::
             concat
               (map (pkg_block CC_FG_DARK_CYAN CC_FG_DARK_GRAY example_heap)
                  (packages example_registry));
           errors := [] |}, example_heap).
Proof.
  split.
  - apply (empty_query_lists_all parse_name_spec [Flag_json] example_registry
             example_heap example_registry_ok). reflexivity.
  - apply (empty_query_lists_all parse_name_spec [] example_registry
             example_heap example_registry_ok);
      [reflexivity | exact example_registry_printable].
Defined.

(** * Further properties of the search cache *)

(** Every way through [wiki_html_cache]: the two tests of its first
    [if], the result of the read, [res->ok] and [res->data]. *)
Ltac cache_cases o env :=
  unfold wiki_html_cache;
  destruct env as [has data ok body]; simpl;
  destruct (opt_cache o =? 0) eqn:Hcache;
  destruct has, data as [cached|], ok, body as [html'|]; simpl.

Ltac in_trace :=
  simpl in *;
  repeat match goal with
         | H : _ \/ _ |- _ => destruct H as [H|H]; try discriminate
         | H : False |- _ => destruct H
         end.

(** X11. One call of [wiki_html_cache] asks the cache whether it has an
    entry, first, and calls each of the other functions at most once,
    whatever the argument: at most one read of the cache, one request,
    one release of the response, one save; and the request is to
    [CLIB_WIKI_URL]. *)
Theorem cache_calls_once (o : opts) (env : search_env) :
  hd_error (snd (wiki_html_cache o env)) = Some Clib_cache_has_search /\
  NoDup (map kind_of (snd (wiki_html_cache o env))) /\
  forall url, In (Http_get url) (snd (wiki_html_cache o env)) ->
              url = CLIB_WIKI_URL.
Proof.
  cache_cases o env; (split; [reflexivity|]); (split; [|intros url Hin]);
    try (in_trace; congruence);
    repeat (apply NoDup_cons; split;
            [rewrite list_elem_of_In; simpl; intros H;
             intuition discriminate|]);
    apply NoDup_nil; exact I.
Qed.

(** X12. The cache is written only with the payload of a request that
    succeeded, and that payload is what the function returns: a cache
    hit and a failed request save nothing. *)
Theorem cache_saves_what_it_returns (o : opts) (env : search_env)
    (html : string) :
  In (Clib_cache_save_search html) (snd (wiki_html_cache o env)) ->
  fst (wiki_html_cache o env) = Some html /\
  http_ok env = true /\ http_data env = Some html /\
  In (Http_get CLIB_WIKI_URL) (snd (wiki_html_cache o env)).
Proof.
  cache_cases o env; intros H; in_trace;
    injection H as <-; repeat split; simpl; tauto.
Qed.

(** X13. A cache entry that cannot be read is a miss: the function goes
    on to the request and returns what it would return with the cache
    skipped, the read being the only additional call. *)
Theorem cache_read_failure_fetches (o : opts) (env : search_env) :
  opt_cache o <> 0 -> cache_has_search env = true ->
  cache_read_search env = None ->
  fst (wiki_html_cache o env) = fst (wiki_html_cache (setopt_nocache o) env) /\
  snd (wiki_html_cache o env) =
  (Clib_cache_has_search :: Clib_cache_read_search ::
   tl (snd (wiki_html_cache (setopt_nocache o) env)))%list.
Proof.
  intros Hnz Hhas Hread. apply Z.eqb_neq in Hnz.
  unfold wiki_html_cache. simpl. rewrite Hhas, Hread, Hnz. simpl.
  destruct (http_ok env); simpl; [|now split].
  destruct (http_data env); now split.
Qed.

(** X14. When [wiki_html_cache] returns [NULL] it has made the request,
    which failed or had no data; it has saved nothing and it has not
    released the response. *)
Theorem cache_null_result (o : opts) (env : search_env) :
  fst (wiki_html_cache o env) = None ->
  In (Http_get CLIB_WIKI_URL) (snd (wiki_html_cache o env)) /\
  (http_ok env = false \/ http_data env = None) /\
  ~ In Http_get_free (snd (wiki_html_cache o env)) /\
  forall html,
    ~ In (Clib_cache_save_search html) (snd (wiki_html_cache o env)).
Proof.
  cache_cases o env; intros H; try discriminate;
    (split; [tauto|]); (split; [tauto|]);
    (split; [|intros html]); intros Hin; in_trace.
Qed.

(** X15. The cache is read exactly when it has an entry and
    [opt_cache] is set, and the request is made exactly when no entry
    was read. *)
Theorem cache_read_and_request (o : opts) (env : search_env) :
  (In Clib_cache_read_search (snd (wiki_html_cache o env)) <->
   cache_has_search env = true /\ opt_cache o <> 0) /\
  (In (Http_get CLIB_WIKI_URL) (snd (wiki_html_cache o env)) <->
   ~ (cache_has_search env = true /\ opt_cache o <> 0 /\
      cache_read_search env <> None)).
Proof.
  unfold wiki_html_cache.
  destruct env as [has data ok body]; simpl.
  destruct (Z.eqb_spec (opt_cache o) 0) as [Hz|Hnz];
    destruct has, data as [cached|], ok, body as [html'|]; simpl;
    intuition (discriminate || congruence).
Qed.

Lemma cache_saves_what_it_returns_witness :
  fst (wiki_html_cache (run_opts []) unreadable_cache_env) = Some "fetched" /\
  http_ok unreadable_cache_env = true /\
  http_data unreadable_cache_env = Some "fetched" /\
  In (Http_get CLIB_WIKI_URL)
     (snd (wiki_html_cache (run_opts []) unreadable_cache_env)).
Proof.
  apply cache_saves_what_it_returns.
  vm_compute. do 4 right. left. reflexivity.
Defined.

Lemma cache_read_failure_fetches_witness :
  fst (wiki_html_cache (run_opts []) unreadable_cache_env) =
  fst (wiki_html_cache (setopt_nocache (run_opts [])) unreadable_cache_env) /\
  snd (wiki_html_cache (run_opts []) unreadable_cache_env) =
  (Clib_cache_has_search :: Clib_cache_read_search ::
   tl (snd (wiki_html_cache (setopt_nocache (run_opts []))
              unreadable_cache_env)))%list.
Proof.
  apply cache_read_failure_fetches; [discriminate | reflexivity | reflexivity].
Defined.

Lemma cache_null_result_witness :
  In (Http_get CLIB_WIKI_URL) (snd (wiki_html_cache (run_opts []) offline_env)) /\
  (http_ok offline_env = false \/ http_data offline_env = None) /\
  ~ In Http_get_free (snd (wiki_html_cache (run_opts []) offline_env)) /\
  forall html,
    ~ In (Clib_cache_save_search html)
        (snd (wiki_html_cache (run_opts []) offline_env)).
Proof. apply cache_null_result. reflexivity. Defined.

(** * The category *)

Section Category.

Variable parse_name : string -> option string.

Lemma matches_category (args : list string) (pkg pkg' : wiki_package) :
  same_but_category pkg pkg' ->
  matches parse_name args pkg = matches parse_name args pkg'.
Proof.
  destruct pkg, pkg'. intros (Hr & Hu & Hd). simpl in *. now subst.
Qed.

Lemma display_package_category (pkg pkg' : wiki_package)
    (hl tx : cc_color_t) :
  same_but_category pkg pkg' ->
  display_package pkg hl tx = display_package pkg' hl tx.
Proof.
  destruct pkg, pkg'. intros (Hr & Hu & Hd). simpl in *. now subst.
Qed.

Lemma iterate_text_category (o : opts) (args : list string)
    (hl tx : cc_color_t) (pkgs pkgs' : list wiki_package)
    (json_list : list JSON_Value) (out : list out_event) (h : heap) :
  (opt_json o =? 0) = true ->
  Forall2 same_but_category pkgs pkgs' ->
  iterate parse_name o args hl tx pkgs json_list out h =
  iterate parse_name o args hl tx pkgs' json_list out h.
Proof.
  intros Hj Hsame. revert json_list out h.
  induction Hsame as [|pkg pkg' pkgs pkgs' Hp Hsame IH];
    intros json_list out h; simpl; [reflexivity|].
  unfold bind. rewrite (matches_category args pkg pkg' Hp).
  destruct (matches parse_name args pkg' h) as [[m h1]|]; [|reflexivity].
  destruct (m =? 0); [apply IH|].
  rewrite Hj, (display_package_category pkg pkg' hl tx Hp).
  destruct (display_package pkg' hl tx h1) as [[b h2]|];
    [apply IH|reflexivity].
Qed.

(** X16. The category of a package is used for the JSON object only:
    [matches] does not look at it, so a term found in the category alone
    is no match, and in text mode the run is the same whatever the
    categories of the packages are. *)
Theorem category_only_in_json (flags : list cli_flag) (argv : list string)
    (pkgs pkgs' : list wiki_package) (ok ok' : bool) (h : heap) :
  Forall2 same_but_category pkgs pkgs' ->
  Forall2 (fun pkg pkg' =>
             forall args h', matches parse_name args pkg h' =
                             matches parse_name args pkg' h') pkgs pkgs' /\
  (given Flag_json flags = false ->
   main parse_name flags argv {| fetch_ok := ok; packages := pkgs |} h =
   main parse_name flags argv {| fetch_ok := ok'; packages := pkgs' |} h).
Proof.
  intros Hsame. split.
  - eapply Forall2_impl; [exact Hsame|].
    intros pkg pkg' Hp args h'. now rewrite (matches_category args pkg pkg').
  - intros Hj. unfold main, bind. simpl.
    pose proof (command_parse_json flags (main_defaults static_opts)) as Hz.
    rewrite Hj in Hz. simpl in Hz.
    rewrite (iterate_text_category _ _ _ _ pkgs pkgs');
      [reflexivity | now rewrite Hz | exact Hsame].
Qed.

End Category.

Lemma category_only_in_json_witness :
  main parse_name_spec [] ["bar"]
    {| fetch_ok := true; packages := [example_pkg] |} example_heap =
  main parse_name_spec [] ["bar"]
    {| fetch_ok := true; packages := [example_pkg_no_category] |}
    example_heap.
Proof.
  apply (category_only_in_json parse_name_spec [] ["bar"]
           [example_pkg] [example_pkg_no_category] true true example_heap).
  - repeat constructor.
  - reflexivity.
Defined.

(** The category of the scenario's record is [tools]; the query [tools]
    does not find it. *)
Example scenario_category_not_searched :
  matches parse_name_spec ["tools"] example_pkg example_heap
  = Some (0, example_heap).
Proof. vm_compute. reflexivity. Qed.

(** * The search cache and the run *)

Section SkipCache.

Variable parse_name : string -> option string.

(** C9, as amended. When it is called, [wiki_html_cache] with
    [opt_cache = 0], the value [--skip-cache] sets, does not read the
    cache and makes the request, whatever the cache holds; a request
    that succeeds saves its payload to the cache and returns it; with
    [opt_cache] set, an entry that is there and can be read is returned
    and no request is made.  [main] does not call [wiki_html_cache]: in
    a run [--skip-cache] changes nothing, none of the calls of
    [wiki_html_cache] is made, and [wiki_registry_fetch] is called. *)
Theorem skip_cache_fetches (flags : list cli_flag) (o : opts)
    (env : search_env) :
  (given Flag_skip_cache flags = true -> opt_cache (run_opts flags) = 0) /\
  (opt_cache o = 0 ->
   ~ In Clib_cache_read_search (snd (wiki_html_cache o env)) /\
   In (Http_get CLIB_WIKI_URL) (snd (wiki_html_cache o env))) /\
  (forall html,
      In (Http_get CLIB_WIKI_URL) (snd (wiki_html_cache o env)) ->
      http_ok env = true -> http_data env = Some html ->
      fst (wiki_html_cache o env) = Some html /\
      In (Clib_cache_save_search html) (snd (wiki_html_cache o env))) /\
  (forall data,
      opt_cache o <> 0 -> cache_has_search env = true ->
      cache_read_search env = Some data ->
      wiki_html_cache o env =
      (Some data, [Clib_cache_has_search; Clib_cache_read_search])) /\
  (forall argv registry h,
      main parse_name (Flag_skip_cache :: flags) argv registry h =
      main parse_name flags argv registry h) /\
  In Registry_fetch (main_calls o) /\
  (forall e, ~ In (Io e) (main_calls o)).
Proof.
  destruct (wiki_html_cache_paths flags o env) as (H1 & H2 & H3 & H4).
  repeat (split; [assumption|]). split; [|split].
  - intros argv registry h. unfold main, bind.
    pose proof (command_parse_color (Flag_skip_cache :: flags)
                  (main_defaults static_opts)) as Hc.
    pose proof (command_parse_json (Flag_skip_cache :: flags)
                  (main_defaults static_opts)) as Hj.
    simpl given in Hc, Hj.
    rewrite <- (command_parse_color flags) in Hc.
    rewrite <- (command_parse_json flags) in Hj.
    rewrite (iterate_opts parse_name _
               (command_parse flags (main_defaults static_opts)))
      by exact Hj.
    now rewrite Hc, Hj.
  - simpl. tauto.
  - intros e H. simpl in H. intuition discriminate.
Qed.

End SkipCache.

(** The function tells [--skip-cache] from its absence, and would
    return a readable entry without a request; the run does neither: it
    is the same with and without the flag, reads no entry, saves nothing
    and calls [wiki_registry_fetch]. *)
Lemma skip_cache_not_in_run :
  wiki_html_cache (run_opts []) fresh_cache_env =
    (Some "cached", [Clib_cache_has_search; Clib_cache_read_search]) /\
  In Registry_fetch (main_calls (run_opts [])) /\
  ~ In (Io Clib_cache_read_search) (main_calls (run_opts [])) /\
  ~ In (Io (Clib_cache_save_search "fetched"))
      (main_calls (run_opts [Flag_skip_cache])) /\
  main parse_name_spec [Flag_skip_cache] ["bar"] example_registry
    example_heap =
  main parse_name_spec [] ["bar"] example_registry example_heap.
Proof.
  split; [reflexivity|]. split; [simpl; tauto|].
  split; [simpl; intuition discriminate|].
  split; [simpl; intuition discriminate|].
  vm_compute. reflexivity.
Qed.

Lemma skip_cache_fetches_witness :
  opt_cache (run_opts [Flag_skip_cache]) = 0 /\
  (~ In Clib_cache_read_search
       (snd (wiki_html_cache (run_opts [Flag_skip_cache]) fresh_cache_env)) /\
   In (Http_get CLIB_WIKI_URL)
      (snd (wiki_html_cache (run_opts [Flag_skip_cache]) fresh_cache_env))) /\
  (fst (wiki_html_cache (run_opts [Flag_skip_cache]) fresh_cache_env)
   = Some "fetched" /\
   In (Clib_cache_save_search "fetched")
      (snd (wiki_html_cache (run_opts [Flag_skip_cache]) fresh_cache_env))) /\
  wiki_html_cache (run_opts []) fresh_cache_env =
  (Some "cached", [Clib_cache_has_search; Clib_cache_read_search]).
Proof.
  destruct (skip_cache_fetches parse_name_spec [Flag_skip_cache]
              (run_opts [Flag_skip_cache]) fresh_cache_env)
    as (Hflag & Hskip & Hsave & _).
  destruct (skip_cache_fetches parse_name_spec [] (run_opts [])
              fresh_cache_env)
    as (_ & _ & _ & Hread & _).
  split; [apply Hflag; reflexivity|].
  split; [apply Hskip; reflexivity|].
  split.
  - apply Hsave; [|reflexivity|reflexivity].
    vm_compute. right. left. reflexivity.
  - apply Hread; [discriminate | reflexivity | reflexivity].
Defined.
